(** * Settlement reconciliation: the matching engine and the report

    A shallow embedding of [internal/reconciler/reconciler.go], of the
    records of [internal/models/models.go] and of the part of
    [internal/store/store.go] that the engine reads.

    Modelling choices, all of them visible in the definitions below:
    - a Go [float64] amount is an exact rational ([Q]); the engine only
      adds, subtracts, multiplies, divides, takes absolute values and
      compares, and the properties proved here are about which branch
      is taken, not about rounding;
    - a [time.Time] is its number of nanoseconds since the epoch ([Z]),
      a [time.Duration] is a saturating 64-bit count of nanoseconds;
    - a Go [int] is a [Z], the result counter of [Run] is a [nat];
    - a Go [map] is a [gmap]; ranging over a map visits its entries in
      an order the language leaves open, so the order is a parameter
      ([MapRange]) constrained to be a permutation of the entries;
    - [sort.Slice] is a parameter constrained by its documented
      contract ([SortSliceSpec]): a sorted permutation, with no promise
      about equal elements;
    - a note built with [fmt.Sprintf] is kept as its format and
      arguments ([Note]); notes joined by "; " are a list. *)

From Stdlib Require Import QArith Qabs Lqa Ascii DecimalString DecimalNat.
From stdpp Require Import gmap strings list sorting.

Set Warnings "-clear-no-such-hyp".

Local Open Scope string_scope.
Local Open Scope list_scope.
Local Open Scope Z_scope.

(** ** models.go *)

Inductive ReconciliationStatus :=
| StatusMatched
| StatusMatchedWithVariance
| StatusUnsettled
| StatusUnexpectedSettlement
| StatusDuplicate.

#[global] Instance ReconciliationStatus_eq_dec : EqDecision ReconciliationStatus.
Proof. solve_decision. Defined.

(** Nanoseconds since the epoch. *)
Definition Time := Z.

Record Transaction := {
  tx_ID : string;
  tx_OrderID : string;
  tx_ProcessorName : string;
  tx_ProcessorTxnID : string;
  tx_Amount : Q;
  tx_Currency : string;
  tx_Country : string;
  tx_Status : string;
  tx_AuthorizedAt : Time;
  tx_CapturedAt : option Time;
  tx_CustomerEmail : string;
  tx_PaymentMethod : string
}.

Record SettlementRecord := {
  st_ID : string;
  st_ProcessorName : string;
  st_ProcessorTxnID : string;
  st_OrderReference : string;
  st_GrossAmount : Q;
  st_FeeAmount : Q;
  st_NetAmount : Q;
  st_Currency : string;
  st_SettledAt : Time;
  st_SettlementBatchID : string
}.

(** The texts [Run] writes into [Notes], one constructor per format
    string, with the arguments the format receives. *)
Inductive Note :=
| NoteDuplicate (key : string) (occurrences : nat)
| NoteUnexpected
| NoteTolerance (variance : Q) (currency : string) (pct : Q)
| NoteCrossCurrency (authorized : Q) (fromCur : string) (settled : Q)
    (toCur : string) (expected : Q)
| NoteFeeDeduction (variance : Q) (currency : string) (fee : Q)
| NoteAmountVariance (expected settled diff : Q) (currency : string)
| NoteLate (days threshold : Z)
| NoteUnsettled.

Record ReconciliationResult := {
  rr_ID : string;
  rr_TransactionID : string;
  rr_SettlementID : string;
  rr_ProcessorName : string;
  rr_Status : ReconciliationStatus;
  rr_ExpectedAmount : Q;
  rr_SettledGrossAmount : Q;
  rr_SettledNetAmount : Q;
  rr_FeeAmount : Q;
  rr_VarianceAmount : Q;
  rr_Currency : string;
  rr_Country : string;
  rr_AuthorizedAt : option Time;
  rr_SettledAt : option Time;
  rr_DaysToSettle : option Z;
  rr_Notes : list Note
}.

Record ReportSummary := {
  TotalTransactions : Z;
  TotalSettlements : Z;
  Matched : Z;
  MatchedWithVariance : Z;
  Unsettled : Z;
  UnexpectedSettlements : Z;
  Duplicates : Z;
  TotalExpectedAmount : Q;
  TotalSettledGross : Q;
  TotalSettledNet : Q;
  TotalVarianceAmount : Q;
  TotalFees : Q;
  ReconciliationRate : Q
}.

Record ReconciliationReport := {
  RunID : string;
  GeneratedAt : Time;
  Summary : ReportSummary;
  ByCurrency : gmap string ReportSummary;
  ByCountry : gmap string ReportSummary;
  ByProcessor : gmap string ReportSummary;
  Results : list ReconciliationResult;
  HighPriority : list ReconciliationResult
}.

Record ReconciliationConfig := {
  VarianceTolerancePct : Q;
  LateSettlementDays : Z;
  HighPriorityThreshold : Q;
  FXRates : gmap string (gmap string Q)
}.

Definition DefaultConfig : ReconciliationConfig := {|
  VarianceTolerancePct := 0;
  LateSettlementDays := 7;
  HighPriorityThreshold := 1000;
  FXRates :=
    <["MXN" := {["USD" := 58 # 1000]}]>
    (<["COP" := {["USD" := 24 # 100000]}]>
    (<["BRL" := {["USD" := 2 # 10]}]>
    (<["USD" := {["USD" := 1%Q]}]> ∅)))
|}.

(** ** Amounts and durations *)

(** [a > b] and [a >= b] on amounts, as booleans. *)
Definition Qgtb (a b : Q) : bool := negb (Qle_bool a b).
Definition Qgeb (a b : Q) : bool := Qle_bool b a.
Definition Qltb (a b : Q) : bool := negb (Qle_bool b a).

(** The rounding floor the engine compares against, [0.01]. *)
Definition cent : Q := 1 # 100.

Definition maxDuration : Z := 2 ^ 63 - 1.
Definition minDuration : Z := - 2 ^ 63.

(** [t.Sub(u)]: the difference, or the extreme duration when it does
    not fit. *)
Definition Time_Sub (t u : Time) : Z :=
  let d := t - u in
  if d <? minDuration then minDuration
  else if maxDuration <? d then maxDuration
  else d.

Definition nanosPerDay : Z := 24 * 3600 * 1000000000.

(** [int(settled.Sub(auth).Hours() / 24)]: whole days, truncated
    towards zero. *)
Definition daysBetween (auth settled : Time) : Z :=
  Z.quot (Time_Sub settled auth) nanosPerDay.

(** ** reconciler.go: helpers *)

Definition processorKey (processorName processorTxnID : string) : string :=
  processorName +:+ ":" +:+ processorTxnID.

Definition findTransaction (pk orderRef : string)
    (byPK byOrder : gmap string Transaction) : option Transaction :=
  match byPK !! pk with
  | Some txn => Some txn
  | None =>
      if bool_decide (orderRef ≠ "")
      then byOrder !! orderRef
      else None
  end.

Definition convertAmount (cfg : ReconciliationConfig) (amount : Q)
    (from to : string) : Q :=
  if bool_decide (from = to) then amount
  else
    match FXRates cfg !! from ≫= (.!! to) with
    | Some rate => (amount * rate)%Q
    | None =>
        match FXRates cfg !! from, FXRates cfg !! to with
        | Some fromUSD, Some toUSD =>
            match fromUSD !! "USD", toUSD !! "USD" with
            | Some rateFromToUSD, Some rateToToUSD =>
                (amount * rateFromToUSD / rateToToUSD)%Q
            | _, _ => amount
            end
        | _, _ => amount
        end
    end.

(** [%04d]: the decimal digits of [n], padded with zeros on the left
    to four characters. *)
Fixpoint zeroPad (k : nat) (d : Decimal.uint) : Decimal.uint :=
  match k with
  | O => d
  | S k' => Decimal.D0 (zeroPad k' d)
  end.

Definition fmt04d (n : nat) : string :=
  let d := Nat.to_uint n in
  NilEmpty.string_of_uint (zeroPad (4 - Decimal.nb_digits d) d).

(** [fmt.Sprintf("RR-%s-%04d", runID, n)] *)
Definition resultIdent (runID : string) (n : nat) : string :=
  "RR-" +:+ runID +:+ "-" +:+ fmt04d n.

(** ** store.go *)

(** The order in which [range] visits a map. *)
Definition MapRange : Type := ∀ A : Type, gmap string A → list (string * A).

Definition MapRangeSpec (range : MapRange) : Prop :=
  ∀ (A : Type) (m : gmap string A), range A m ≡ₚ map_to_list m.

(** The two maps [Run] reads, keyed by identifier; the map of runs,
    which [Run] never reads, is left out. *)
Record Store := {
  transactions : gmap string Transaction;
  settlements : gmap string SettlementRecord
}.

Definition Store_New : Store := {| transactions := ∅; settlements := ∅ |}.

Definition AddTransactions (s : Store) (txns : list Transaction) : Store * Z :=
  foldl (λ (acc : Store * Z) t,
           let '(s, count) := acc in
           ({| transactions := <[tx_ID t := t]> (transactions s);
               settlements := settlements s |},
            if decide (is_Some (transactions s !! tx_ID t))
            then count else count + 1))
        (s, 0) txns.

Definition AddSettlements (s : Store) (recs : list SettlementRecord) : Store * Z :=
  foldl (λ (acc : Store * Z) r,
           let '(s, count) := acc in
           ({| transactions := transactions s;
               settlements := <[st_ID r := r]> (settlements s) |},
            if decide (is_Some (settlements s !! st_ID r))
            then count else count + 1))
        (s, 0) recs.

Definition ListTransactions (range : MapRange) (s : Store) : list Transaction :=
  (range _ (transactions s)).*2.

Definition ListSettlements (range : MapRange) (s : Store) : list SettlementRecord :=
  (range _ (settlements s)).*2.

(** Every record is stored under its own identifier: [Add...] writes
    [s.transactions[t.ID] = t] and nothing else writes the maps. *)
Definition store_wf (s : Store) : Prop :=
  map_Forall (λ k t, tx_ID t = k) (transactions s) ∧
  map_Forall (λ k r, st_ID r = k) (settlements s).

(** ** reconciler.go: Run *)

(** The variables [Run] updates while it goes through its phases. *)
Record RunState := {
  results : list ReconciliationResult;
  resultID : nat;
  matchedTxnIDs : gset string;
  matchedSettlementIDs : gset string;
  duplicateKeys : gset string
}.

Definition initState : RunState := {|
  results := [];
  resultID := 0;
  matchedTxnIDs := ∅;
  matchedSettlementIDs := ∅;
  duplicateKeys := ∅
|}.

Definition txnKey (t : Transaction) : string :=
  processorKey (tx_ProcessorName t) (tx_ProcessorTxnID t).

Definition settKey (s : SettlementRecord) : string :=
  processorKey (st_ProcessorName s) (st_ProcessorTxnID s).

Definition txnByProcessorKey (txns : list Transaction) : gmap string Transaction :=
  foldl (λ m t, <[txnKey t := t]> m) ∅ txns.

Definition txnByOrderID (txns : list Transaction) : gmap string Transaction :=
  foldl (λ m t, <[tx_OrderID t := t]> m) ∅ txns.

Definition settlementsByKey (setts : list SettlementRecord)
    : gmap string (list SettlementRecord) :=
  foldl (λ m s, <[settKey s := default [] (m !! settKey s) ++ [s]]> m) ∅ setts.

(** The outcome of one settlement of a duplicate group; [txn] is the
    result of the group's lookup. *)
Definition duplicateResult (id key : string) (occurrences : nat)
    (txn : option Transaction) (s : SettlementRecord) : ReconciliationResult := {|
  rr_ID := id;
  rr_TransactionID := from_option tx_ID "" txn;
  rr_SettlementID := st_ID s;
  rr_ProcessorName := st_ProcessorName s;
  rr_Status := StatusDuplicate;
  rr_ExpectedAmount := from_option tx_Amount 0%Q txn;
  rr_SettledGrossAmount := st_GrossAmount s;
  rr_SettledNetAmount := st_NetAmount s;
  rr_FeeAmount := st_FeeAmount s;
  rr_VarianceAmount :=
    from_option (λ t, st_GrossAmount s - tx_Amount t)%Q 0%Q txn;
  rr_Currency := st_Currency s;
  rr_Country := from_option tx_Country "" txn;
  rr_AuthorizedAt := tx_AuthorizedAt <$> txn;
  rr_SettledAt := Some (st_SettledAt s);
  rr_DaysToSettle :=
    (λ t, daysBetween (tx_AuthorizedAt t) (st_SettledAt s)) <$> txn;
  rr_Notes := [NoteDuplicate key occurrences]
|}.

Definition phase1Settlement (runID key : string) (occurrences : nat)
    (txn : option Transaction) (st : RunState) (s : SettlementRecord) : RunState := {|
  results :=
    results st ++
    [duplicateResult (resultIdent runID (S (resultID st))) key occurrences txn s];
  resultID := S (resultID st);
  matchedTxnIDs :=
    from_option (λ t, {[tx_ID t]} ∪ matchedTxnIDs st) (matchedTxnIDs st) txn;
  matchedSettlementIDs := {[st_ID s]} ∪ matchedSettlementIDs st;
  duplicateKeys := duplicateKeys st
|}.

(** One iteration of the loop over [settlementsByKey]; the pattern
    [s0 :: _ :: _] is [len(setts) > 1], and [s0] is [setts[0]]. *)
Definition phase1Group (runID : string) (byPK byOrder : gmap string Transaction)
    (st : RunState) (entry : string * list SettlementRecord) : RunState :=
  let '(key, setts) := entry in
  match setts with
  | s0 :: _ :: _ =>
      let st' := {| results := results st;
                    resultID := resultID st;
                    matchedTxnIDs := matchedTxnIDs st;
                    matchedSettlementIDs := matchedSettlementIDs st;
                    duplicateKeys := {[key]} ∪ duplicateKeys st |} in
      let txn := findTransaction key (st_OrderReference s0) byPK byOrder in
      foldl (phase1Settlement runID key (length setts) txn) st' setts
  | _ => st
  end.

Definition unexpectedResult (id : string) (s : SettlementRecord)
    : ReconciliationResult := {|
  rr_ID := id;
  rr_TransactionID := "";
  rr_SettlementID := st_ID s;
  rr_ProcessorName := st_ProcessorName s;
  rr_Status := StatusUnexpectedSettlement;
  rr_ExpectedAmount := 0;
  rr_SettledGrossAmount := st_GrossAmount s;
  rr_SettledNetAmount := st_NetAmount s;
  rr_FeeAmount := st_FeeAmount s;
  rr_VarianceAmount := st_GrossAmount s;
  rr_Currency := st_Currency s;
  rr_Country := "";
  rr_AuthorizedAt := None;
  rr_SettledAt := Some (st_SettledAt s);
  rr_DaysToSettle := None;
  rr_Notes := [NoteUnexpected]
|}.

(** Lines 133-155: the status and the note of a matched settlement. *)
Definition classifyVariance (cfg : ReconciliationConfig) (txn : Transaction)
    (s : SettlementRecord) (expectedAmount variance : Q)
    : ReconciliationStatus * list Note :=
  if Qgtb (Qabs variance) cent then
    let toleranceAmt := (expectedAmount * VarianceTolerancePct cfg)%Q in
    if Qle_bool (Qabs variance) toleranceAmt then
      (StatusMatched,
       [NoteTolerance variance (st_Currency s) (VarianceTolerancePct cfg * 100)%Q])
    else if bool_decide (tx_Currency txn ≠ st_Currency s) then
      (StatusMatchedWithVariance,
       [NoteCrossCurrency (tx_Amount txn) (tx_Currency txn) (st_GrossAmount s)
          (st_Currency s) expectedAmount])
    else if Qgtb (st_FeeAmount s) 0 &&
            Qltb (Qabs (variance + st_FeeAmount s)) cent then
      (StatusMatched,
       [NoteFeeDeduction variance (st_Currency s) (st_FeeAmount s)])
    else
      (StatusMatchedWithVariance,
       [NoteAmountVariance expectedAmount (st_GrossAmount s) variance (st_Currency s)])
  else (StatusMatched, []).

Definition matchedResult (cfg : ReconciliationConfig) (id : string)
    (txn : Transaction) (s : SettlementRecord) : ReconciliationResult :=
  let expectedAmount :=
    convertAmount cfg (tx_Amount txn) (tx_Currency txn) (st_Currency s) in
  let variance := (st_GrossAmount s - expectedAmount)%Q in
  let '(status, notes) := classifyVariance cfg txn s expectedAmount variance in
  let days := daysBetween (tx_AuthorizedAt txn) (st_SettledAt s) in
  let notes' :=
    if LateSettlementDays cfg <? days
    then notes ++ [NoteLate days (LateSettlementDays cfg)]
    else notes in
  {| rr_ID := id;
     rr_TransactionID := tx_ID txn;
     rr_SettlementID := st_ID s;
     rr_ProcessorName := tx_ProcessorName txn;
     rr_Status := status;
     rr_ExpectedAmount := expectedAmount;
     rr_SettledGrossAmount := st_GrossAmount s;
     rr_SettledNetAmount := st_NetAmount s;
     rr_FeeAmount := st_FeeAmount s;
     rr_VarianceAmount := variance;
     rr_Currency := st_Currency s;
     rr_Country := tx_Country txn;
     rr_AuthorizedAt := Some (tx_AuthorizedAt txn);
     rr_SettledAt := Some (st_SettledAt s);
     rr_DaysToSettle := Some days;
     rr_Notes := notes' |}.

(** One iteration of the loop of phase 2. *)
Definition phase2Settlement (runID : string) (cfg : ReconciliationConfig)
    (byPK byOrder : gmap string Transaction)
    (st : RunState) (s : SettlementRecord) : RunState :=
  if bool_decide (st_ID s ∈ matchedSettlementIDs st) then st
  else if bool_decide (settKey s ∈ duplicateKeys st) then st
  else
    let id := resultIdent runID (S (resultID st)) in
    match findTransaction (settKey s) (st_OrderReference s) byPK byOrder with
    | None =>
        {| results := results st ++ [unexpectedResult id s];
           resultID := S (resultID st);
           matchedTxnIDs := matchedTxnIDs st;
           matchedSettlementIDs := {[st_ID s]} ∪ matchedSettlementIDs st;
           duplicateKeys := duplicateKeys st |}
    | Some txn =>
        {| results := results st ++ [matchedResult cfg id txn s];
           resultID := S (resultID st);
           matchedTxnIDs := {[tx_ID txn]} ∪ matchedTxnIDs st;
           matchedSettlementIDs := {[st_ID s]} ∪ matchedSettlementIDs st;
           duplicateKeys := duplicateKeys st |}
    end.

Definition unsettledResult (id : string) (txn : Transaction)
    : ReconciliationResult := {|
  rr_ID := id;
  rr_TransactionID := tx_ID txn;
  rr_SettlementID := "";
  rr_ProcessorName := tx_ProcessorName txn;
  rr_Status := StatusUnsettled;
  rr_ExpectedAmount := tx_Amount txn;
  rr_SettledGrossAmount := 0;
  rr_SettledNetAmount := 0;
  rr_FeeAmount := 0;
  rr_VarianceAmount := 0;
  rr_Currency := tx_Currency txn;
  rr_Country := tx_Country txn;
  rr_AuthorizedAt := Some (tx_AuthorizedAt txn);
  rr_SettledAt := None;
  rr_DaysToSettle := None;
  rr_Notes := [NoteUnsettled]
|}.

(** One iteration of the loop of phase 3. *)
Definition phase3Transaction (runID : string) (st : RunState) (txn : Transaction)
    : RunState :=
  if bool_decide (tx_ID txn ∈ matchedTxnIDs st) then st
  else
    {| results :=
         results st ++ [unsettledResult (resultIdent runID (S (resultID st))) txn];
       resultID := S (resultID st);
       matchedTxnIDs := matchedTxnIDs st;
       matchedSettlementIDs := matchedSettlementIDs st;
       duplicateKeys := duplicateKeys st |}.

(** The three phases of [Run] on the two snapshots. *)
Definition runPhases (range : MapRange) (cfg : ReconciliationConfig)
    (runID : string) (txns : list Transaction) (setts : list SettlementRecord)
    : RunState :=
  let byPK := txnByProcessorKey txns in
  let byOrder := txnByOrderID txns in
  let st1 := foldl (phase1Group runID byPK byOrder) initState
                   (range _ (settlementsByKey setts)) in
  let st2 := foldl (phase2Settlement runID cfg byPK byOrder) st1 setts in
  foldl (phase3Transaction runID) st2 txns.

(** ** reconciler.go: buildReport *)

Definition zeroSummary : ReportSummary := {|
  TotalTransactions := 0; TotalSettlements := 0;
  Matched := 0; MatchedWithVariance := 0; Unsettled := 0;
  UnexpectedSettlements := 0; Duplicates := 0;
  TotalExpectedAmount := 0; TotalSettledGross := 0; TotalSettledNet := 0;
  TotalVarianceAmount := 0; TotalFees := 0; ReconciliationRate := 0
|}.

Definition bump (status here : ReconciliationStatus) (n : Z) : Z :=
  if bool_decide (status = here) then n + 1 else n.

Definition addToSummary (s : ReportSummary) (res : ReconciliationResult)
    : ReportSummary := {|
  TotalTransactions := TotalTransactions s;
  TotalSettlements := TotalSettlements s;
  Matched := bump (rr_Status res) StatusMatched (Matched s);
  MatchedWithVariance :=
    bump (rr_Status res) StatusMatchedWithVariance (MatchedWithVariance s);
  Unsettled := bump (rr_Status res) StatusUnsettled (Unsettled s);
  UnexpectedSettlements :=
    bump (rr_Status res) StatusUnexpectedSettlement (UnexpectedSettlements s);
  Duplicates := bump (rr_Status res) StatusDuplicate (Duplicates s);
  TotalExpectedAmount := (TotalExpectedAmount s + rr_ExpectedAmount res)%Q;
  TotalSettledGross := (TotalSettledGross s + rr_SettledGrossAmount res)%Q;
  TotalSettledNet := (TotalSettledNet s + rr_SettledNetAmount res)%Q;
  TotalVarianceAmount := (TotalVarianceAmount s + rr_VarianceAmount res)%Q;
  TotalFees := (TotalFees s + rr_FeeAmount res)%Q;
  ReconciliationRate := ReconciliationRate s
|}.

(** [s := m[key]; addToSummary(&s, res); m[key] = s], skipped when the
    key is empty. *)
Definition addToBreakdown (m : gmap string ReportSummary) (key : string)
    (res : ReconciliationResult) : gmap string ReportSummary :=
  if bool_decide (key ≠ "")
  then <[key := addToSummary (default zeroSummary (m !! key)) res]> m
  else m.

(** The first ground: status not matched and the variance at or above
    the threshold. *)
Definition largeVariance (cfg : ReconciliationConfig) (res : ReconciliationResult)
    : bool :=
  bool_decide (rr_Status res ≠ StatusMatched) &&
  Qgeb (Qabs (rr_VarianceAmount res)) (HighPriorityThreshold cfg).

(** The second ground: days-to-settle present and above the threshold. *)
Definition lateSettlement (cfg : ReconciliationConfig) (res : ReconciliationResult)
    : bool :=
  match rr_DaysToSettle res with
  | Some days => LateSettlementDays cfg <? days
  | None => false
  end.

Definition alreadyAdded (hp : list ReconciliationResult) (res : ReconciliationResult)
    : bool :=
  existsb (λ h, bool_decide (rr_ID h = rr_ID res)) hp.

Definition flagHighPriority (cfg : ReconciliationConfig)
    (hp : list ReconciliationResult) (res : ReconciliationResult)
    : list ReconciliationResult :=
  let hp1 := if largeVariance cfg res then hp ++ [res] else hp in
  if lateSettlement cfg res then
    if alreadyAdded hp1 res then hp1 else hp1 ++ [res]
  else hp1.

(** One iteration of the loop over the results. *)
Definition reportStep (cfg : ReconciliationConfig) (report : ReconciliationReport)
    (res : ReconciliationResult) : ReconciliationReport := {|
  RunID := RunID report;
  GeneratedAt := GeneratedAt report;
  Summary := addToSummary (Summary report) res;
  ByCurrency := addToBreakdown (ByCurrency report) (rr_Currency res) res;
  ByCountry := addToBreakdown (ByCountry report) (rr_Country res) res;
  ByProcessor := addToBreakdown (ByProcessor report) (rr_ProcessorName res) res;
  Results := Results report;
  HighPriority := flagHighPriority cfg (HighPriority report) res
|}.

Definition summaryTotal (s : ReportSummary) : Z :=
  Matched s + MatchedWithVariance s + Unsettled s +
  UnexpectedSettlements s + Duplicates s.

(** [if total > 0 { rate = float64(matched+variance)/float64(total)*100 }];
    the field keeps its value otherwise. *)
Definition withRate (s : ReportSummary) : ReportSummary :=
  let total := summaryTotal s in
  {| TotalTransactions := TotalTransactions s;
     TotalSettlements := TotalSettlements s;
     Matched := Matched s;
     MatchedWithVariance := MatchedWithVariance s;
     Unsettled := Unsettled s;
     UnexpectedSettlements := UnexpectedSettlements s;
     Duplicates := Duplicates s;
     TotalExpectedAmount := TotalExpectedAmount s;
     TotalSettledGross := TotalSettledGross s;
     TotalSettledNet := TotalSettledNet s;
     TotalVarianceAmount := TotalVarianceAmount s;
     TotalFees := TotalFees s;
     ReconciliationRate :=
       if 0 <? total
       then (inject_Z (Matched s + MatchedWithVariance s) / inject_Z total * 100)%Q
       else ReconciliationRate s |}.

(** [sort.Slice] with the comparison applied to the elements. *)
Definition SortSlice : Type := ∀ A : Type, (A → A → bool) → list A → list A.

(** The comparison handed to [sort.Slice]. *)
Definition absVarianceGreater (a b : ReconciliationResult) : bool :=
  Qgtb (Qabs (rr_VarianceAmount a)) (Qabs (rr_VarianceAmount b)).

Definition buildReport (sortSlice : SortSlice) (now : Time)
    (cfg : ReconciliationConfig) (runID : string)
    (txns : list Transaction) (setts : list SettlementRecord)
    (results : list ReconciliationResult) : ReconciliationReport :=
  let report0 := {|
    RunID := runID;
    GeneratedAt := now;
    Summary := {|
      TotalTransactions := Z.of_nat (length txns);
      TotalSettlements := Z.of_nat (length setts);
      Matched := 0; MatchedWithVariance := 0; Unsettled := 0;
      UnexpectedSettlements := 0; Duplicates := 0;
      TotalExpectedAmount := 0; TotalSettledGross := 0; TotalSettledNet := 0;
      TotalVarianceAmount := 0; TotalFees := 0; ReconciliationRate := 0 |};
    ByCurrency := ∅;
    ByCountry := ∅;
    ByProcessor := ∅;
    Results := results;
    HighPriority := [] |} in
  let report := foldl (reportStep cfg) report0 results in
  {| RunID := RunID report;
     GeneratedAt := GeneratedAt report;
     Summary := withRate (Summary report);
     ByCurrency := ByCurrency report;
     ByCountry := ByCountry report;
     ByProcessor := ByProcessor report;
     Results := Results report;
     HighPriority := sortSlice _ absVarianceGreater (HighPriority report) |}.

(** [Run]: the two snapshots, the three phases, the report. *)
Definition Run (range : MapRange) (sortSlice : SortSlice) (now : Time)
    (store : Store) (cfg : ReconciliationConfig) (runID : string)
    : ReconciliationReport :=
  let txns := ListTransactions range store in
  let setts := ListSettlements range store in
  buildReport sortSlice now cfg runID txns setts
    (results (runPhases range cfg runID txns setts)).

(** ** The contract of the two parameters *)

(** What [sort.Interface] asks of [Less]: a transitive ordering. *)
Record LessOrdering {A : Type} (less : A → A → bool) : Prop := {
  less_irrefl : ∀ a, less a a = false;
  less_trans : ∀ a b c, less a b = true → less b c = true → less a c = true;
  less_negtrans : ∀ a b c, less a b = false → less b c = false → less a c = false
}.

(** [a] may stand before [b]: [b] is not less than [a]. *)
Definition notAfter {A : Type} (less : A → A → bool) : relation A :=
  λ a b, less b a = false.

#[global] Instance notAfter_dec {A : Type} (less : A → A → bool) (a b : A) :
  Decision (notAfter less a b).
Proof. unfold notAfter. apply _. Defined.

(** What [sort.Slice] promises: the same elements, and no element
    less than the one before it ([sort.SliceIsSorted]). *)
Definition SortSliceSpec (sortSlice : SortSlice) : Prop :=
  ∀ (A : Type) (less : A → A → bool) (l : list A),
    LessOrdering less →
    sortSlice A less l ≡ₚ l ∧ Sorted (notAfter less) (sortSlice A less l).

(** Two instances: the order of visit of [map_to_list], and a sort
    that keeps the arrival order of equal elements. *)
Definition rangeCanonical : MapRange := λ A m, map_to_list m.

Definition sortStable : SortSlice :=
  λ A less l, merge_sort (notAfter less) l.


(** ** The specification's wording, for comparison *)

(** The entry [rateTable[from][to]], present when both levels are. *)
Definition rateEntry (cfg : ReconciliationConfig) (from to : string) : option Q :=
  match FXRates cfg !! from with
  | Some rates => rates !! to
  | None => None
  end.

(** [convert] as section 4.2 words it: identity, direct entry, bridge
    through "USD", else the amount unconverted. *)
Definition convert_spec (cfg : ReconciliationConfig) (amount : Q)
    (from to : string) : Q :=
  if decide (from = to) then amount
  else
    match rateEntry cfg from to with
    | Some rate => (amount * rate)%Q
    | None =>
        match rateEntry cfg from "USD", rateEntry cfg to "USD" with
        | Some rateFromToUSD, Some rateToToUSD =>
            (amount * rateFromToUSD / rateToToUSD)%Q
        | _, _ => amount
        end
    end.

(** How many results carry a status. *)
Definition countStatus (status : ReconciliationStatus)
    (l : list ReconciliationResult) : Z :=
  Z.of_nat (length (filter (λ r, rr_Status r = status) l)).







(** ** Invariants of the loops of [Run] *)

(** The identifiers handed out so far are those of 1 .. [resultID]. *)
Definition idsInOrder (runID : string) (st : RunState) : Prop :=
  rr_ID <$> results st = resultIdent runID <$> seq 1 (resultID st).

(** ** The high-priority list, in the specification's words *)

(** An outcome qualifies on the first ground or on the second. *)
Definition qualifies (cfg : ReconciliationConfig) (r : ReconciliationResult)
    : bool :=
  largeVariance cfg r || lateSettlement cfg r.




(** ** Variance, in the specification's words *)

(** The variance of an outcome that refers to the transaction [t] and
    the settlement [s]: settled gross minus the expected amount
    converted into the currency of the settlement. *)
Definition varianceFXAdjusted (cfg : ReconciliationConfig) (store : Store)
    (r : ReconciliationResult) : Prop :=
  ∀ t s,
    transactions store !! rr_TransactionID r = Some t →
    settlements store !! rr_SettlementID r = Some s →
    (rr_VarianceAmount r ==
     st_GrossAmount s -
     convertAmount cfg (tx_Amount t) (tx_Currency t) (st_Currency s))%Q.

(** ** Exhaustiveness, in the specification's words *)

(** An outcome refers to a settlement, or to a transaction, when [Run]
    built it from one; it then carries the record's timestamp. *)
Definition hasSettlement (r : ReconciliationResult) : Prop :=
  is_Some (rr_SettledAt r).

Definition hasTransaction (r : ReconciliationResult) : Prop :=
  is_Some (rr_AuthorizedAt r).

#[global] Instance hasSettlement_dec r : Decision (hasSettlement r).
Proof. unfold hasSettlement. apply _. Defined.

#[global] Instance hasTransaction_dec r : Decision (hasTransaction r).
Proof. unfold hasTransaction. apply _. Defined.





(** ** Views of the state used by the proofs *)

(** What an outcome says about its settlement: the identifier, and
    whether the outcome is a duplicate. *)
Definition settlementView (r : ReconciliationResult) : option (string * bool) :=
  match rr_SettledAt r with
  | Some _ => Some (rr_SettlementID r, bool_decide (rr_Status r = StatusDuplicate))
  | None => None
  end.

(** An entry of [settlementsByKey] with more than one settlement. *)
Definition isDupEntry (entry : string * list SettlementRecord) : Prop :=
  (1 < length entry.2)%nat.

#[global] Instance isDupEntry_dec entry : Decision (isDupEntry entry).
Proof. unfold isDupEntry. apply _. Defined.

(** The processor key of [s] occurs more than once in the snapshot. *)
Definition keyDuplicated (setts : list SettlementRecord) (s : SettlementRecord)
    : Prop :=
  (1 < length (filter (λ s', settKey s' = settKey s) setts))%nat.

#[global] Instance keyDuplicated_dec setts s : Decision (keyDuplicated setts s).
Proof. unfold keyDuplicated. apply _. Defined.

(** Some outcome refers to the transaction identifier [id]. *)
Definition covered (id : string) (outcomes : list ReconciliationResult) : Prop :=
  ∃ r, r ∈ outcomes ∧ hasTransaction r ∧ rr_TransactionID r = id.

(** Every transaction marked as matched has an outcome. *)
Definition txnsCovered (st : RunState) : Prop :=
  ∀ id, id ∈ matchedTxnIDs st → covered id (results st).

(** ** Fixtures of reconciler_test.go *)

(** [time.Date(2025, 1, 15, 10, 0, 0, 0, time.UTC)] *)
Definition baseTime : Time := 1736935200 * 1000000000.

Definition hour : Z := 3600 * 1000000000.

Definition mkTxn (id ord pn ptid : string) (amt : Q) (cur ctry : string)
    : Transaction := {|
  tx_ID := id; tx_OrderID := ord; tx_ProcessorName := pn;
  tx_ProcessorTxnID := ptid; tx_Amount := amt; tx_Currency := cur;
  tx_Country := ctry; tx_Status := "captured"; tx_AuthorizedAt := baseTime;
  tx_CapturedAt := Some (baseTime + 2 * hour);
  tx_CustomerEmail := ""; tx_PaymentMethod := ""
|}.

Definition mkSett (id pn ptid ord : string) (gross fee net : Q) (cur : string)
    (settledAt : Time) : SettlementRecord := {|
  st_ID := id; st_ProcessorName := pn; st_ProcessorTxnID := ptid;
  st_OrderReference := ord; st_GrossAmount := gross; st_FeeAmount := fee;
  st_NetAmount := net; st_Currency := cur; st_SettledAt := settledAt;
  st_SettlementBatchID := ""
|}.

(** [s := store.New(); s.AddTransactions(txns); s.AddSettlements(setts)] *)
Definition mkStore (txns : list Transaction) (setts : list SettlementRecord)
    : Store :=
  (AddSettlements (AddTransactions Store_New txns).1 setts).1.

Definition txn001 : Transaction :=
  mkTxn "TXN-001" "ORD-001" "PaySureMX" "PSM-001" 100 "MXN" "MX".






(** One transaction of 100 MXN and two settlements under its processor
    key, both of 5.80 USD, the amount the default rate converts to. *)
Definition txnMXN : Transaction := mkTxn "T1" "O1" "P1" "PT1" 100 "MXN" "MX".

Definition settUSD1 : SettlementRecord :=
  mkSett "S1" "P1" "PT1" "O1" (58 # 10) 0 (58 # 10) "USD" (baseTime + 48 * hour).

Definition settUSD2 : SettlementRecord :=
  mkSett "S2" "P1" "PT1" "O1" (58 # 10) 0 (58 # 10) "USD" (baseTime + 72 * hour).

Definition storeDuplicateFX : Store := mkStore [txnMXN] [settUSD1; settUSD2].

(** The same transaction and the first settlement alone. *)
Definition storeSingleFX : Store := mkStore [txnMXN] [settUSD1].

(** One transaction that is never settled. *)
Definition storeUnsettled : Store := mkStore [txn001] [].




(** [cfg.VarianceTolerancePct = 0.02] *)
Definition configTolerance2 : ReconciliationConfig := {|
  VarianceTolerancePct := 2 # 100;
  LateSettlementDays := LateSettlementDays DefaultConfig;
  HighPriorityThreshold := HighPriorityThreshold DefaultConfig;
  FXRates := FXRates DefaultConfig
|}.

Definition storePerfectMatch : Store :=
  mkStore [txn001]
    [mkSett "STL-001" "PaySureMX" "PSM-001" "ORD-001" 100 0 100 "MXN"
       (baseTime + 48 * hour)].

Definition storeWithinTolerance : Store :=
  mkStore [txn001]
    [mkSett "STL-001" "PaySureMX" "PSM-001" "ORD-001" (985 # 10) 0 (985 # 10) "MXN"
       (baseTime + 48 * hour)].

Definition storeUnexpected : Store :=
  mkStore []
    [mkSett "STL-001" "GlobalTransact" "GT-UNKNOWN-001" "EXT-ORD-001" 500
       (125 # 10) (4875 # 10) "COP" baseTime].

Definition storeLate : Store :=
  mkStore [txn001]
    [mkSett "STL-001" "PaySureMX" "PSM-001" "ORD-001" 100 0 100 "MXN"
       (baseTime + 15 * 24 * hour)].

Definition storeFallback : Store :=
  mkStore [txn001]
    [mkSett "STL-001" "PaySureMX" "PSM-DIFFERENT" "ORD-001" 100 0 100 "MXN"
       (baseTime + 48 * hour)].

Definition storeFull : Store :=
  mkStore
    [mkTxn "T1" "O1" "P1" "PT1" 100 "USD" "MX";
     mkTxn "T2" "O2" "P1" "PT2" 200 "MXN" "MX";
     mkTxn "T3" "O3" "P2" "PT3" 300 "BRL" "BR";
     mkTxn "T4" "O4" "P2" "PT4" 400 "COP" "CO";
     mkTxn "T5" "O5" "P1" "PT5" 500 "USD" "MX"]
    [mkSett "S1" "P1" "PT1" "O1" 100 0 100 "USD" (baseTime + 48 * hour);
     mkSett "S2" "P1" "PT2" "O2" 200 0 200 "MXN" (baseTime + 48 * hour);
     mkSett "S3" "P2" "PT3" "O3" 300 0 300 "BRL" (baseTime + 48 * hour);
     mkSett "S4" "P2" "PT4" "O4" 350 10 340 "COP" (baseTime + 48 * hour);
     mkSett "S6" "P3" "PT-X" "O-X" 999 0 999 "USD" (baseTime + 48 * hour);
     mkSett "S7" "P1" "PT1" "O1" 100 0 100 "USD" (baseTime + 48 * hour)].

(** A settlement 2000 below the authorized amount, 15 days late. *)
Definition storeLateAndLarge : Store :=
  mkStore [mkTxn "T1" "O1" "P1" "PT1" 5000 "USD" "MX"]
    [mkSett "S1" "P1" "PT1" "O1" 3000 0 3000 "USD" (baseTime + 15 * 24 * hour)].

(** The default configuration with a high-priority threshold of 0. *)
Definition configThreshold0 : ReconciliationConfig := {|
  VarianceTolerancePct := VarianceTolerancePct DefaultConfig;
  LateSettlementDays := LateSettlementDays DefaultConfig;
  HighPriorityThreshold := 0;
  FXRates := FXRates DefaultConfig
|}.

(** ** models.go and store.go: reconciliation runs *)

Record ReconciliationRun := {
  run_ID : string;
  run_CreatedAt : Time;
  run_Status : string;
  run_Report : option ReconciliationReport
}.

(** The third map of [store.Store], [runs], is kept beside [Store];
    its values are the runs the pointers of the source refer to. *)
Definition SaveRun (runs : gmap string ReconciliationRun) (run : ReconciliationRun)
    : gmap string ReconciliationRun :=
  <[run_ID run := run]> runs.

Definition GetRun (runs : gmap string ReconciliationRun) (id : string)
    : option ReconciliationRun :=
  runs !! id.

Definition ListRuns (range : MapRange) (runs : gmap string ReconciliationRun)
    : list ReconciliationRun :=
  (range _ runs).*2.

Definition GetTransaction (s : Store) (id : string) : option Transaction :=
  transactions s !! id.

Definition GetSettlement (s : Store) (id : string) : option SettlementRecord :=
  settlements s !! id.

(** [TransactionsByProcessorTxnID] and [TransactionsByOrderID]: the
    indexes built by ranging over the stored transactions. *)
Definition TransactionsByProcessorTxnID (range : MapRange) (s : Store)
    : gmap string Transaction :=
  foldl (λ idx t,
           <[tx_ProcessorName t +:+ ":" +:+ tx_ProcessorTxnID t := t]> idx)
        ∅ (range _ (transactions s)).*2.

Definition TransactionsByOrderID (range : MapRange) (s : Store)
    : gmap string Transaction :=
  foldl (λ idx t, <[tx_OrderID t := t]> idx) ∅ (range _ (transactions s)).*2.

(** [Clear]: the three maps are replaced by empty ones. *)
Definition Clear : Store * gmap string ReconciliationRun := (Store_New, ∅).

(** ** handler.go *)

(** The handler: the store it shares with its reconciler (the two
    record maps and the runs), the configuration of the reconciler it
    holds, its own configuration and the run counter. *)
Record Handler := {
  h_store : Store;
  h_runs : gmap string ReconciliationRun;
  h_reconciler : ReconciliationConfig;
  h_config : ReconciliationConfig;
  h_runSeq : nat
}.

(** [handler.New(s, r, cfg)] on a store, with [r] a reconciler of
    configuration [rcfg]. *)
Definition Handler_New (s : Store) (runs : gmap string ReconciliationRun)
    (rcfg cfg : ReconciliationConfig) : Handler := {|
  h_store := s; h_runs := runs; h_reconciler := rcfg; h_config := cfg;
  h_runSeq := 0
|}.

(** What a handler writes: a status code with a body, or with an
    error message. *)
Inductive Response (A : Type) :=
| Reply (status : Z) (body : A)
| ErrorReply (status : Z) (msg : string).

Arguments Reply {A} status body.
Arguments ErrorReply {A} status msg.

Definition StatusOK : Z := 200.
Definition StatusCreated : Z := 201.
Definition StatusBadRequest : Z := 400.
Definition StatusNotFound : Z := 404.

(** [uploadTransactions]; [body] is what decoding the request body
    gives: the text of the decoder's error or the decoded list. The
    reply carries [received] and [new]. *)
Definition uploadTransactions (h : Handler) (body : string + list Transaction)
    : Handler * Response (Z * Z) :=
  match body with
  | inl err => (h, ErrorReply StatusBadRequest ("invalid JSON: " +:+ err))
  | inr [] => (h, ErrorReply StatusBadRequest "empty transaction list")
  | inr txns =>
      let '(s, count) := AddTransactions (h_store h) txns in
      ({| h_store := s; h_runs := h_runs h; h_reconciler := h_reconciler h;
          h_config := h_config h; h_runSeq := h_runSeq h |},
       Reply StatusCreated (Z.of_nat (length txns), count))
  end.

Definition uploadSettlements (h : Handler) (body : string + list SettlementRecord)
    : Handler * Response (Z * Z) :=
  match body with
  | inl err => (h, ErrorReply StatusBadRequest ("invalid JSON: " +:+ err))
  | inr [] => (h, ErrorReply StatusBadRequest "empty settlement list")
  | inr recs =>
      let '(s, count) := AddSettlements (h_store h) recs in
      ({| h_store := s; h_runs := h_runs h; h_reconciler := h_reconciler h;
          h_config := h_config h; h_runSeq := h_runSeq h |},
       Reply StatusCreated (Z.of_nat (length recs), count))
  end.

(** Lines 404-414 of [triggerReconciliation]: the handler's
    configuration with the positive fields of the override. *)
Definition mergedConfig (base override : ReconciliationConfig)
    : ReconciliationConfig := {|
  VarianceTolerancePct :=
    if Qgtb (VarianceTolerancePct override) 0
    then VarianceTolerancePct override else VarianceTolerancePct base;
  LateSettlementDays :=
    if 0 <? LateSettlementDays override
    then LateSettlementDays override else LateSettlementDays base;
  HighPriorityThreshold :=
    if Qgtb (HighPriorityThreshold override) 0
    then HighPriorityThreshold override else HighPriorityThreshold base;
  FXRates := FXRates base
|}.

(** The configuration of the reconciler a triggered run uses;
    [cfgOverride] is the decoded request body, when there is one and it
    decodes. *)
Definition runConfig (h : Handler) (cfgOverride : option ReconciliationConfig)
    : ReconciliationConfig :=
  match cfgOverride with
  | Some override =>
      if Qgtb (VarianceTolerancePct override) 0 ||
         (0 <? LateSettlementDays override) ||
         Qgtb (HighPriorityThreshold override) 0
      then mergedConfig (h_config h) override
      else h_reconciler h
  | None => h_reconciler h
  end.

(** [fmt.Sprintf("RUN-%04d", n)] *)
Definition runIdent (n : nat) : string := "RUN-" +:+ fmt04d n.

(** [triggerReconciliation]; [createdAt] and [generatedAt] are the two
    readings of the clock. The reply carries the run identifier and the
    summary. *)
Definition triggerReconciliation (range : MapRange) (sortSlice : SortSlice)
    (createdAt generatedAt : Time) (h : Handler)
    (cfgOverride : option ReconciliationConfig)
    : Handler * Response (string * ReportSummary) :=
  let runSeq := S (h_runSeq h) in
  let runID := runIdent runSeq in
  let runs1 :=
    SaveRun (h_runs h)
      {| run_ID := runID; run_CreatedAt := createdAt; run_Status := "running";
         run_Report := None |} in
  let report :=
    Run range sortSlice generatedAt (h_store h) (runConfig h cfgOverride) runID in
  let runs2 :=
    SaveRun runs1
      {| run_ID := runID; run_CreatedAt := createdAt; run_Status := "completed";
         run_Report := Some report |} in
  ({| h_store := h_store h; h_runs := runs2; h_reconciler := h_reconciler h;
      h_config := h_config h; h_runSeq := runSeq |},
   Reply StatusOK (runID, Summary report)).

Definition getRun (h : Handler) (runID : string) : Response ReconciliationRun :=
  match GetRun (h_runs h) runID with
  | None => ErrorReply StatusNotFound "reconciliation run not found"
  | Some run => Reply StatusOK run
  end.

Definition getReport (h : Handler) (runID : string) : Response ReconciliationReport :=
  match GetRun (h_runs h) runID with
  | None => ErrorReply StatusNotFound "reconciliation run not found"
  | Some run =>
      match run_Report run with
      | None => ErrorReply StatusNotFound "report not available yet"
      | Some report => Reply StatusOK report
      end
  end.

(** The results of one run that refer to [txnID]; none when the run
    has no report. *)
Definition runResultsFor (txnID : string) (run : ReconciliationRun)
    : list ReconciliationResult :=
  match run_Report run with
  | None => []
  | Some report =>
      filter (λ res, rr_TransactionID res = txnID) (Results report)
  end.

(** [getTransactionReconciliation]: the reply carries the transaction
    identifier and the matching results of all runs. *)
Definition getTransactionReconciliation (range : MapRange) (h : Handler)
    (txnID : string) : Response (string * list ReconciliationResult) :=
  match GetTransaction (h_store h) txnID with
  | None => ErrorReply StatusNotFound "transaction not found"
  | Some _ =>
      Reply StatusOK
        (txnID, concat (runResultsFor txnID <$> ListRuns range (h_runs h)))
  end.

Definition getConfig (h : Handler) : Response ReconciliationConfig :=
  Reply StatusOK (h_config h).

(** [updateConfig]; [body] is what decoding the request body gives:
    the text of the decoder's error or the decoded configuration. *)
Definition updateConfig (h : Handler) (body : string + ReconciliationConfig)
    : Handler * Response ReconciliationConfig :=
  match body with
  | inl err => (h, ErrorReply StatusBadRequest ("invalid JSON: " +:+ err))
  | inr cfg =>
      ({| h_store := h_store h; h_runs := h_runs h; h_reconciler := cfg;
          h_config := cfg; h_runSeq := h_runSeq h |},
       Reply StatusOK cfg)
  end.

(** What the handler keeps true of its state: records are stored under
    their identifiers, the reconciler it holds has its configuration,
    and no run is numbered beyond the counter. *)
Definition handler_wf (h : Handler) : Prop :=
  store_wf (h_store h) ∧
  h_reconciler h = h_config h ∧
  ∀ n, is_Some (h_runs h !! runIdent n) → (n ≤ h_runSeq h)%nat.

(** ** Predicates used to state further properties *)

(** The string holds the separator of [processorKey]. *)
Fixpoint hasColon (s : string) : bool :=
  match s with
  | EmptyString => false
  | String c s' => Ascii.eqb c ":"%char || hasColon s'
  end.

(** Which fields of an outcome carry data, by status. *)
Definition wellShaped (r : ReconciliationResult) : Prop :=
  match rr_Status r with
  | StatusUnsettled =>
      rr_SettlementID r = "" ∧ rr_SettledAt r = None ∧ rr_DaysToSettle r = None ∧
      rr_SettledGrossAmount r = 0%Q ∧ rr_SettledNetAmount r = 0%Q ∧
      rr_FeeAmount r = 0%Q ∧ rr_VarianceAmount r = 0%Q ∧
      is_Some (rr_AuthorizedAt r)
  | StatusUnexpectedSettlement =>
      rr_TransactionID r = "" ∧ rr_AuthorizedAt r = None ∧
      rr_DaysToSettle r = None ∧ rr_Country r = "" ∧
      rr_ExpectedAmount r = 0%Q ∧
      rr_VarianceAmount r = rr_SettledGrossAmount r ∧
      is_Some (rr_SettledAt r)
  | StatusMatched | StatusMatchedWithVariance =>
      is_Some (rr_AuthorizedAt r) ∧ is_Some (rr_SettledAt r) ∧
      is_Some (rr_DaysToSettle r) ∧
      rr_VarianceAmount r = (rr_SettledGrossAmount r - rr_ExpectedAmount r)%Q
  | StatusDuplicate =>
      is_Some (rr_SettledAt r) ∧
      match rr_AuthorizedAt r with
      | Some _ =>
          is_Some (rr_DaysToSettle r) ∧
          rr_VarianceAmount r = (rr_SettledGrossAmount r - rr_ExpectedAmount r)%Q
      | None =>
          rr_TransactionID r = "" ∧ rr_DaysToSettle r = None ∧
          rr_ExpectedAmount r = 0%Q ∧ rr_VarianceAmount r = 0%Q
      end
  end.

(** The status of an outcome of phase 2. *)
Definition settledOnce (r : ReconciliationResult) : Prop :=
  rr_Status r = StatusMatched ∨ rr_Status r = StatusMatchedWithVariance ∨
  rr_Status r = StatusUnexpectedSettlement.

(** Every outcome that refers to a transaction has it marked. *)
Definition coveredMarked (st : RunState) : Prop :=
  ∀ id, covered id (results st) → id ∈ matchedTxnIDs st.

(** The sum of one amount over a list of outcomes. *)
Definition sumAmounts (amount : ReconciliationResult → Q)
    (l : list ReconciliationResult) : Q :=
  foldr (λ r acc, (amount r + acc)%Q) 0%Q l.

(** The summary of the outcomes whose field [key] is [k]; none for the
    empty key and when no outcome has the key. *)
Definition bucketOf (key : ReconciliationResult → string) (k : string)
    (l : list ReconciliationResult) : option ReportSummary :=
  if decide (k = "") then None
  else
    match filter (λ r, key r = k) l with
    | [] => None
    | group => Some (foldl addToSummary zeroSummary group)
    end.

(** * Properties *)

(** ** The fixtures run as the tests expect *)

Example resultIdent_7 : resultIdent "TEST" 7 = "RR-TEST-0007".
Proof. reflexivity. Qed.

Example resultIdent_4321 : resultIdent "R" 4321 = "RR-R-4321".
Proof. reflexivity. Qed.

Example convert_default :
  convertAmount DefaultConfig 100 "MXN" "USD" = (100 * (58 # 1000))%Q.
Proof. vm_compute. reflexivity. Qed.

Example TestMatchedWithVariance :
  let report :=
    Run rangeCanonical sortStable 0
      (mkStore [txn001]
         [mkSett "STL-001" "PaySureMX" "PSM-001" "ORD-001" 85 3 82 "MXN"
            (baseTime + 48 * hour)])
      DefaultConfig "TEST-002" in
  MatchedWithVariance (Summary report) = 1 ∧
  (rr_VarianceAmount <$> Results report) = [(-15)%Q].
Proof. vm_compute. split; reflexivity. Qed.

Example TestPerfectMatch :
  let report := Run rangeCanonical sortStable 0 storePerfectMatch DefaultConfig "TEST-001" in
  Matched (Summary report) = 1 ∧
  (λ r, (rr_Status r, rr_VarianceAmount r)) <$> Results report = [(StatusMatched, 0%Q)].
Proof. vm_compute. split; reflexivity. Qed.

Example TestVarianceTolerance :
  Matched (Summary (Run rangeCanonical sortStable 0 storeWithinTolerance
                      configTolerance2 "TEST-003")) = 1.
Proof. vm_compute. reflexivity. Qed.

Example TestUnsettled :
  let report := Run rangeCanonical sortStable 0 storeUnsettled DefaultConfig "TEST-004" in
  Unsettled (Summary report) = 1 ∧
  rr_Status <$> Results report = [StatusUnsettled].
Proof. vm_compute. split; reflexivity. Qed.

Example TestUnexpectedSettlement :
  UnexpectedSettlements
    (Summary (Run rangeCanonical sortStable 0 storeUnexpected DefaultConfig "TEST-005")) = 1.
Proof. vm_compute. reflexivity. Qed.

Example TestDuplicateSettlement :
  Duplicates
    (Summary (Run rangeCanonical sortStable 0
                (mkStore [mkTxn "TXN-001" "ORD-001" "LatamPay" "LP-001" 300 "USD" "MX"]
                   [mkSett "STL-001" "LatamPay" "LP-001" "ORD-001" 300 0 300 "USD"
                      (baseTime + 48 * hour);
                    mkSett "STL-002" "LatamPay" "LP-001" "ORD-001" 300 0 300 "USD"
                      (baseTime + 72 * hour)])
                DefaultConfig "TEST-006")) = 2.
Proof. vm_compute. reflexivity. Qed.

Example TestLateSettlementFlagging :
  let report := Run rangeCanonical sortStable 0 storeLate DefaultConfig "TEST-007" in
  length (HighPriority report) = 1%nat ∧
  rr_DaysToSettle <$> Results report = [Some 15].
Proof. vm_compute. split; reflexivity. Qed.

Example TestFallbackMatchByOrderID :
  Matched (Summary (Run rangeCanonical sortStable 0 storeFallback DefaultConfig "TEST-008")) = 1.
Proof. vm_compute. reflexivity. Qed.

Example TestFullDatasetReconciliation :
  let summary := Summary (Run rangeCanonical sortStable 0 storeFull DefaultConfig "FULL-TEST") in
  Duplicates summary = 2 ∧ Matched summary = 2 ∧ MatchedWithVariance summary = 1 ∧
  Unsettled summary = 1 ∧ UnexpectedSettlements summary = 1.
Proof. vm_compute. repeat split; reflexivity. Qed.

(** ** Comparisons on amounts *)

Lemma Qgtb_true (a b : Q) : Qgtb a b = true ↔ (b < a)%Q.
Proof.
  unfold Qgtb. rewrite negb_true_iff, <- not_true_iff_false, Qle_bool_iff.
  split; [apply Qnot_le_lt | apply Qlt_not_le].
Qed.

Lemma Qgtb_false (a b : Q) : Qgtb a b = false ↔ (a <= b)%Q.
Proof. unfold Qgtb. rewrite negb_false_iff. apply Qle_bool_iff. Qed.


Lemma Qltb_false (a b : Q) : Qltb a b = false ↔ (b <= a)%Q.
Proof. apply Qgtb_false. Qed.

Lemma Qgeb_true (a b : Q) : Qgeb a b = true ↔ (b <= a)%Q.
Proof. apply Qle_bool_iff. Qed.


(** ** The currency converter *)

Lemma convertAmount_same cfg amount cur :
  convertAmount cfg amount cur cur = amount.
Proof. unfold convertAmount. by rewrite bool_decide_eq_true_2. Qed.

Lemma convertAmount_direct cfg amount from to rate :
  from ≠ to → rateEntry cfg from to = Some rate →
  convertAmount cfg amount from to = (amount * rate)%Q.
Proof.
  intros Hne Hrate. unfold convertAmount, rateEntry in *.
  rewrite bool_decide_eq_false_2 by done.
  destruct (FXRates cfg !! from) as [rates|]; simpl in *; [|done].
  by rewrite Hrate.
Qed.

Lemma convertAmount_bridge cfg amount from to r1 r2 :
  from ≠ to → rateEntry cfg from to = None →
  rateEntry cfg from "USD" = Some r1 → rateEntry cfg to "USD" = Some r2 →
  convertAmount cfg amount from to = (amount * r1 / r2)%Q.
Proof.
  intros Hne Hdirect H1 H2. unfold convertAmount, rateEntry in *.
  rewrite bool_decide_eq_false_2 by done.
  destruct (FXRates cfg !! from) as [fromUSD|]; simpl in *; [|done].
  destruct (FXRates cfg !! to) as [toUSD|]; [|done].
  by rewrite Hdirect, H1, H2.
Qed.

Lemma convertAmount_fallback cfg amount from to :
  from ≠ to → rateEntry cfg from to = None →
  rateEntry cfg from "USD" = None ∨ rateEntry cfg to "USD" = None →
  convertAmount cfg amount from to = amount.
Proof.
  intros Hne Hdirect Hbridge. unfold convertAmount, rateEntry in *.
  rewrite bool_decide_eq_false_2 by done.
  destruct (FXRates cfg !! from) as [fromUSD|]; simpl in *.
  - rewrite Hdirect.
    destruct (FXRates cfg !! to) as [toUSD|]; [|done].
    destruct Hbridge as [->| ->]; [done|].
    by destruct (fromUSD !! "USD").
  - by destruct (FXRates cfg !! to).
Qed.

(** C6. For all amounts and currency codes, [convertAmount] is the
    converter of the specification: the amount unchanged when the
    currencies are equal; otherwise the amount times
    [rateTable[from][to]] when that entry exists; otherwise, when both
    [rateTable[from]["USD"]] and [rateTable[to]["USD"]] exist, the amount
    times the first and divided by the second; otherwise the amount
    unconverted. It is a total function: no case raises an error. *)
Theorem convertAmount_spec (cfg : ReconciliationConfig) (amount : Q)
    (from to : string) :
  convertAmount cfg amount from to = convert_spec cfg amount from to.
Proof.
  unfold convert_spec. case_decide as Heq.
  - subst. apply convertAmount_same.
  - destruct (rateEntry cfg from to) as [rate|] eqn:Hdirect.
    + by apply convertAmount_direct.
    + destruct (rateEntry cfg from "USD") as [r1|] eqn:H1.
      * destruct (rateEntry cfg to "USD") as [r2|] eqn:H2.
        -- by apply convertAmount_bridge.
        -- apply convertAmount_fallback; auto.
      * apply convertAmount_fallback; auto.
Qed.

(** ** The report: what the loop over the results computes *)

Lemma foldl_reportStep_Summary cfg l report :
  Summary (foldl (reportStep cfg) report l) = foldl addToSummary (Summary report) l.
Proof. revert report. induction l as [|r l IH]; intros; [done|]. simpl. by rewrite IH. Qed.

Lemma foldl_reportStep_HighPriority cfg l report :
  HighPriority (foldl (reportStep cfg) report l) =
  foldl (flagHighPriority cfg) (HighPriority report) l.
Proof. revert report. induction l as [|r l IH]; intros; [done|]. simpl. by rewrite IH. Qed.

Lemma foldl_reportStep_Results cfg l report :
  Results (foldl (reportStep cfg) report l) = Results report.
Proof. revert report. induction l as [|r l IH]; intros; [done|]. simpl. by rewrite IH. Qed.

Lemma buildReport_Results sortSlice now cfg runID txns setts results :
  Results (buildReport sortSlice now cfg runID txns setts results) = results.
Proof. unfold buildReport. simpl. by rewrite foldl_reportStep_Results. Qed.

Lemma countStatus_cons status r l :
  countStatus status (r :: l) =
  (if bool_decide (rr_Status r = status) then 1 else 0) + countStatus status l.
Proof.
  unfold countStatus. rewrite filter_cons.
  case_bool_decide; case_decide; try done; simpl; lia.
Qed.

Lemma countStatus_nonneg status l : 0 ≤ countStatus status l.
Proof. unfold countStatus. lia. Qed.

Lemma foldl_addToSummary_counts l s :
  let s' := foldl addToSummary s l in
  Matched s' = Matched s + countStatus StatusMatched l ∧
  MatchedWithVariance s' =
    MatchedWithVariance s + countStatus StatusMatchedWithVariance l ∧
  Unsettled s' = Unsettled s + countStatus StatusUnsettled l ∧
  UnexpectedSettlements s' =
    UnexpectedSettlements s + countStatus StatusUnexpectedSettlement l ∧
  Duplicates s' = Duplicates s + countStatus StatusDuplicate l ∧
  ReconciliationRate s' = ReconciliationRate s.
Proof.
  revert s. induction l as [|r l IH]; intros s; simpl.
  - unfold countStatus. simpl. repeat split; lia.
  - destruct (IH (addToSummary s r)) as (H1 & H2 & H3 & H4 & H5 & H6).
    rewrite H1, H2, H3, H4, H5, H6, !countStatus_cons. simpl. unfold bump.
    repeat split; try done; repeat case_bool_decide; try lia; congruence.
Qed.

(** The per-status counters of the summary count the results. *)
Lemma buildReport_counts sortSlice now cfg runID txns setts results :
  let s := Summary (buildReport sortSlice now cfg runID txns setts results) in
  Matched s = countStatus StatusMatched results ∧
  MatchedWithVariance s = countStatus StatusMatchedWithVariance results ∧
  Unsettled s = countStatus StatusUnsettled results ∧
  UnexpectedSettlements s = countStatus StatusUnexpectedSettlement results ∧
  Duplicates s = countStatus StatusDuplicate results.
Proof.
  unfold buildReport. simpl. rewrite foldl_reportStep_Summary. simpl.
  match goal with |- context [foldl addToSummary ?s0 _] =>
    destruct (foldl_addToSummary_counts results s0) as (H1 & H2 & H3 & H4 & H5 & _)
  end.
  simpl in *. rewrite H1, H2, H3, H4, H5. repeat split; lia.
Qed.

(** C7. In every report, the reconciliation rate is
    (matched + matched_with_variance) divided by the sum of the five
    status counters, times 100, when that sum is not zero, and 0 when
    it is zero. *)
Theorem reconciliation_rate_formula (sortSlice : SortSlice) (now : Time)
    (cfg : ReconciliationConfig) (runID : string) (txns : list Transaction)
    (setts : list SettlementRecord) (results : list ReconciliationResult) :
  let s := Summary (buildReport sortSlice now cfg runID txns setts results) in
  let denominator :=
    Matched s + MatchedWithVariance s + Unsettled s +
    UnexpectedSettlements s + Duplicates s in
  ReconciliationRate s =
    if bool_decide (denominator = 0) then 0%Q
    else (inject_Z (Matched s + MatchedWithVariance s) / inject_Z denominator * 100)%Q.
Proof.
  intros s denominator.
  destruct (buildReport_counts sortSlice now cfg runID txns setts results)
    as (H1 & H2 & H3 & H4 & H5).
  fold s in H1, H2, H3, H4, H5.
  assert (Hnonneg : 0 ≤ denominator).
  { unfold denominator. rewrite H1, H2, H3, H4, H5.
    pose proof (countStatus_nonneg StatusMatched results).
    pose proof (countStatus_nonneg StatusMatchedWithVariance results).
    pose proof (countStatus_nonneg StatusUnsettled results).
    pose proof (countStatus_nonneg StatusUnexpectedSettlement results).
    pose proof (countStatus_nonneg StatusDuplicate results). lia. }
  subst s denominator. unfold buildReport in *. simpl in *.
  rewrite foldl_reportStep_Summary in *. simpl in *.
  match goal with |- context [foldl addToSummary ?s0 _] =>
    destruct (foldl_addToSummary_counts results s0) as (_ & _ & _ & _ & _ & Hrate);
    set (s' := foldl addToSummary s0 results) in *
  end.
  simpl in Hrate. unfold summaryTotal.
  case_bool_decide as Hz.
  - rewrite Hz. simpl. exact Hrate.
  - destruct (0 <? _) eqn:Hpos; [done|]. apply Z.ltb_ge in Hpos. lia.
Qed.

(** ** Phase 2: the status of a matched pair *)




Lemma matchedResult_fields cfg id txn s :
  let expected := convertAmount cfg (tx_Amount txn) (tx_Currency txn) (st_Currency s) in
  let variance := (st_GrossAmount s - expected)%Q in
  let r := matchedResult cfg id txn s in
  rr_ID r = id ∧ rr_TransactionID r = tx_ID txn ∧ rr_SettlementID r = st_ID s ∧
  rr_ExpectedAmount r = expected ∧ rr_VarianceAmount r = variance ∧
  rr_Status r = (classifyVariance cfg txn s expected variance).1 ∧
  (∀ n, n ∈ (classifyVariance cfg txn s expected variance).2 → n ∈ rr_Notes r) ∧
  rr_AuthorizedAt r = Some (tx_AuthorizedAt txn) ∧
  rr_SettledAt r = Some (st_SettledAt s) ∧
  rr_DaysToSettle r = Some (daysBetween (tx_AuthorizedAt txn) (st_SettledAt s)).
Proof.
  intros expected variance r. subst r. unfold matchedResult.
  fold expected. fold variance.
  destruct (classifyVariance cfg txn s expected variance) as [status notes].
  simpl. repeat split; try done.
  intros n Hn. case_match; set_solver.
Qed.










(** ** Result identifiers *)

Lemma append_inj_r (p a b : string) : p +:+ a = p +:+ b → a = b.
Proof. induction p as [|c p IH]; simpl; [done|]. intros [= H]. auto. Qed.

Lemma of_uint_zeroPad k d : Nat.of_uint (zeroPad k d) = Nat.of_uint d.
Proof. induction k as [|k IH]; simpl; [done|]. exact IH. Qed.

Lemma fmt04d_inj n m : fmt04d n = fmt04d m → n = m.
Proof.
  unfold fmt04d. intros H.
  apply (f_equal NilEmpty.uint_of_string) in H.
  rewrite !NilEmpty.usu in H. injection H as H.
  apply (f_equal Nat.of_uint) in H.
  by rewrite !of_uint_zeroPad, !DecimalNat.Unsigned.of_to in H.
Qed.

#[global] Instance resultIdent_inj runID : Inj (=) (=) (resultIdent runID).
Proof.
  intros n m H. unfold resultIdent in H.
  by apply append_inj_r, append_inj_r, append_inj_r, fmt04d_inj in H.
Qed.

Lemma foldl_invariant {A B} (P : A → Prop) (f : A → B → A) (l : list B) (a : A) :
  (∀ a x, x ∈ l → P a → P (f a x)) → P a → P (foldl f a l).
Proof.
  revert a. induction l as [|x l IH]; intros a Hstep Ha; simpl; [done|].
  apply IH.
  - intros a' y Hy. apply Hstep. by right.
  - apply Hstep; [by left|done].
Qed.

Lemma idsInOrder_emit runID st st' r :
  idsInOrder runID st →
  results st' = results st ++ [r] →
  resultID st' = S (resultID st) →
  rr_ID r = resultIdent runID (S (resultID st)) →
  idsInOrder runID st'.
Proof.
  unfold idsInOrder. intros Hinv -> -> Hid.
  rewrite fmap_app, seq_S, fmap_app, Hinv. simpl. by rewrite Hid.
Qed.

Lemma idsInOrder_phase1Settlement runID key n txn st s :
  idsInOrder runID st → idsInOrder runID (phase1Settlement runID key n txn st s).
Proof. intros H. by eapply idsInOrder_emit. Qed.

Lemma idsInOrder_phase1Group runID byPK byOrder st entry :
  idsInOrder runID st → idsInOrder runID (phase1Group runID byPK byOrder st entry).
Proof.
  intros H. destruct entry as [key [|s0 [|s1 setts]]]; simpl; try done.
  apply (foldl_invariant (idsInOrder runID)
           (phase1Settlement runID key _ _) (s0 :: s1 :: setts)).
  - intros. by apply idsInOrder_phase1Settlement.
  - exact H.
Qed.

Lemma idsInOrder_phase2Settlement runID cfg byPK byOrder st s :
  idsInOrder runID st →
  idsInOrder runID (phase2Settlement runID cfg byPK byOrder st s).
Proof.
  intros H. unfold phase2Settlement. repeat case_bool_decide; try done.
  destruct (findTransaction _ _ _ _) as [txn|].
  - eapply idsInOrder_emit; [done..|].
    by destruct (matchedResult_fields cfg (resultIdent runID (S (resultID st))) txn s)
      as [-> _].
  - by eapply idsInOrder_emit.
Qed.

Lemma idsInOrder_phase3Transaction runID st txn :
  idsInOrder runID st → idsInOrder runID (phase3Transaction runID st txn).
Proof.
  intros H. unfold phase3Transaction. case_bool_decide; [done|].
  by eapply idsInOrder_emit.
Qed.

Lemma idsInOrder_runPhases range cfg runID txns setts :
  idsInOrder runID (runPhases range cfg runID txns setts).
Proof.
  unfold runPhases.
  apply foldl_invariant; [intros; by apply idsInOrder_phase3Transaction|].
  apply foldl_invariant; [intros; by apply idsInOrder_phase2Settlement|].
  apply foldl_invariant; [intros; by apply idsInOrder_phase1Group|].
  done.
Qed.

Lemma idsInOrder_NoDup runID st :
  idsInOrder runID st → NoDup (rr_ID <$> results st).
Proof.
  unfold idsInOrder. intros ->. apply NoDup_fmap_2; [apply _|]. apply NoDup_seq.
Qed.

Lemma runPhases_NoDup_ids range cfg runID txns setts :
  NoDup (rr_ID <$> results (runPhases range cfg runID txns setts)).
Proof. eapply idsInOrder_NoDup, idsInOrder_runPhases. Qed.

Lemma Run_Results range sortSlice now store cfg runID :
  Results (Run range sortSlice now store cfg runID) =
  results (runPhases range cfg runID (ListTransactions range store)
             (ListSettlements range store)).
Proof. unfold Run. apply buildReport_Results. Qed.


(** C9. Within a single run the outcomes receive the identifiers
    ["RR-" runID "-" n] for n = 1, 2, ... in the order of the list (n
    written with at least four digits), so no two outcomes of one report
    share an identifier. *)
Theorem result_identifiers_distinct (range : MapRange) (sortSlice : SortSlice)
    (now : Time) (store : Store) (cfg : ReconciliationConfig) (runID : string) :
  let outcomes := Results (Run range sortSlice now store cfg runID) in
  rr_ID <$> outcomes = resultIdent runID <$> seq 1 (length outcomes) ∧
  NoDup (rr_ID <$> outcomes).
Proof.
  intros outcomes. subst outcomes. rewrite Run_Results.
  pose proof (idsInOrder_runPhases range cfg runID (ListTransactions range store)
                (ListSettlements range store)) as Hinv.
  split; [|by eapply idsInOrder_NoDup].
  unfold idsInOrder in Hinv. rewrite Hinv. do 2 f_equal.
  apply (f_equal length) in Hinv. by rewrite !length_fmap, length_seq in Hinv.
Qed.

(** ** The two parameters: instances that meet their contracts *)

Lemma rangeCanonical_spec : MapRangeSpec rangeCanonical.
Proof. intros A m. reflexivity. Qed.

Lemma notAfter_total {A} (less : A → A → bool) :
  LessOrdering less → Total (notAfter less).
Proof.
  intros [Hirr Htrans _] a b. unfold notAfter.
  destruct (less b a) eqn:Hba; [|by left].
  destruct (less a b) eqn:Hab; [|by right].
  pose proof (Htrans _ _ _ Hab Hba) as Haa. by rewrite Hirr in Haa.
Qed.


Lemma merge_sort_spec {A} (less : A → A → bool) (l l' : list A) :
  LessOrdering less → l' ≡ₚ l →
  merge_sort (notAfter less) l' ≡ₚ l ∧
  Sorted (notAfter less) (merge_sort (notAfter less) l').
Proof.
  intros Hless Hperm. split.
  - by rewrite merge_sort_Permutation.
  - pose proof (notAfter_total less Hless). by apply Sorted_merge_sort.
Qed.

Lemma sortStable_spec : SortSliceSpec sortStable.
Proof. intros A less l Hless. by apply merge_sort_spec. Qed.


Lemma absVarianceGreater_ordering : LessOrdering absVarianceGreater.
Proof.
  unfold absVarianceGreater. split.
  - intros a. apply Qgtb_false, Qle_refl.
  - intros a b c. rewrite !Qgtb_true. intros Hab Hbc. by eapply Qlt_trans.
  - intros a b c. rewrite !Qgtb_false. intros Hab Hbc. by eapply Qle_trans.
Qed.


(** ** The high-priority list *)

Lemma alreadyAdded_true hp r :
  alreadyAdded hp r = true ↔ ∃ h, h ∈ hp ∧ rr_ID h = rr_ID r.
Proof.
  unfold alreadyAdded. rewrite existsb_exists. split.
  - intros (h & Hin & Hid). exists h. split; [by apply list_elem_of_In|].
    by apply bool_decide_eq_true in Hid.
  - intros (h & Hin & Hid). exists h. split; [by apply list_elem_of_In|].
    by apply bool_decide_eq_true.
Qed.

Lemma flagHighPriority_fresh cfg hp r :
  (∀ h, h ∈ hp → rr_ID h ≠ rr_ID r) →
  flagHighPriority cfg hp r = hp ++ (if qualifies cfg r then [r] else []).
Proof.
  intros Hfresh. unfold flagHighPriority, qualifies.
  destruct (largeVariance cfg r); simpl.
  - destruct (lateSettlement cfg r); [|done].
    rewrite (proj2 (alreadyAdded_true _ _)); [done|].
    exists r. split; [|done]. apply elem_of_app. right. by left.
  - destruct (lateSettlement cfg r); [|by rewrite app_nil_r].
    destruct (alreadyAdded hp r) eqn:Hadded; [|done].
    apply alreadyAdded_true in Hadded as (h & Hin & Hid). by apply Hfresh in Hin.
Qed.

Lemma foldl_flagHighPriority cfg l hp :
  NoDup (rr_ID <$> l) →
  (∀ h r, h ∈ hp → r ∈ l → rr_ID h ≠ rr_ID r) →
  foldl (flagHighPriority cfg) hp l =
  hp ++ filter (λ r, qualifies cfg r = true) l.
Proof.
  revert hp. induction l as [|r l IH]; intros hp Hnodup Hfresh; simpl.
  - by rewrite app_nil_r.
  - rewrite fmap_cons in Hnodup. apply NoDup_cons in Hnodup as [Hr Hnodup].
    rewrite flagHighPriority_fresh by (intros h Hh; apply Hfresh; [done|by left]).
    rewrite IH; [| done |].
    + rewrite <- app_assoc. f_equal. rewrite filter_cons.
      destruct (qualifies cfg r); case_decide; done.
    + intros h r' Hh Hr'. apply elem_of_app in Hh as [Hh|Hh].
      * apply Hfresh; [done|by right].
      * destruct (qualifies cfg r); [|by apply elem_of_nil in Hh].
        apply list_elem_of_singleton in Hh as ->.
        intros Heq. apply Hr. rewrite Heq. by apply list_elem_of_fmap_2.
Qed.

(** With distinct identifiers the list is the sorted list of the
    outcomes that qualify. *)
Lemma buildReport_HighPriority sortSlice now cfg runID txns setts results :
  NoDup (rr_ID <$> results) →
  HighPriority (buildReport sortSlice now cfg runID txns setts results) =
  sortSlice _ absVarianceGreater (filter (λ r, qualifies cfg r = true) results).
Proof.
  intros Hnodup. unfold buildReport. simpl.
  rewrite foldl_reportStep_HighPriority. simpl.
  rewrite foldl_flagHighPriority; [done..|].
  intros h r Hh. by apply elem_of_nil in Hh.
Qed.

Lemma Run_HighPriority range sortSlice now store cfg runID :
  HighPriority (Run range sortSlice now store cfg runID) =
  sortSlice _ absVarianceGreater
    (filter (λ r, qualifies cfg r = true)
       (Results (Run range sortSlice now store cfg runID))).
Proof.
  rewrite Run_Results. unfold Run.
  apply buildReport_HighPriority, runPhases_NoDup_ids.
Qed.

Lemma Run_HighPriority_perm range sortSlice now store cfg runID :
  SortSliceSpec sortSlice →
  HighPriority (Run range sortSlice now store cfg runID) ≡ₚ
  filter (λ r, qualifies cfg r = true)
    (Results (Run range sortSlice now store cfg runID)).
Proof.
  intros Hsort. rewrite Run_HighPriority.
  by destruct (Hsort _ absVarianceGreater
                 (filter (λ r, qualifies cfg r = true)
                    (Results (Run range sortSlice now store cfg runID)))
                 absVarianceGreater_ordering) as [Hperm _].
Qed.



(** An outcome that qualifies on both grounds is listed once. *)
Example both_grounds_listed_once :
  let report := Run rangeCanonical sortStable 0 storeLateAndLarge DefaultConfig "RUN" in
  (λ r, (largeVariance DefaultConfig r, lateSettlement DefaultConfig r)) <$>
    Results report = [(true, true)] ∧
  rr_ID <$> HighPriority report = ["RR-RUN-0001"].
Proof. vm_compute. split; reflexivity. Qed.





(** ** The shape of the outcomes of a run *)

Lemma Forall_snoc_2 {A} (P : A → Prop) (l : list A) (x : A) :
  Forall P l → P x → Forall P (l ++ [x]).
Proof. intros Hl Hx. apply Forall_app. split; [done|]. by constructor. Qed.

(** Every outcome of a run is built by one of the four constructors. *)
Lemma runPhases_Forall (P : ReconciliationResult → Prop) range cfg runID txns setts :
  (∀ id key n txn s, P (duplicateResult id key n txn s)) →
  (∀ id s, P (unexpectedResult id s)) →
  (∀ id txn s, P (matchedResult cfg id txn s)) →
  (∀ id txn, P (unsettledResult id txn)) →
  Forall P (results (runPhases range cfg runID txns setts)).
Proof.
  intros Hdup Hunexp Hmatch Hunset. unfold runPhases.
  apply (foldl_invariant (λ st, Forall P (results st))).
  { intros st txn _ Hst. unfold phase3Transaction. case_bool_decide; [done|].
    simpl. by apply Forall_snoc_2. }
  apply (foldl_invariant (λ st, Forall P (results st))).
  { intros st s _ Hst. unfold phase2Settlement.
    repeat case_bool_decide; try done.
    destruct (findTransaction _ _ _ _); simpl; by apply Forall_snoc_2. }
  apply (foldl_invariant (λ st, Forall P (results st))); [|by constructor].
  intros st [key setts'] _ Hst. destruct setts' as [|s0 [|s1 setts']]; simpl; try done.
  apply (foldl_invariant (λ st, Forall P (results st))
           (phase1Settlement runID key _ _) (s0 :: s1 :: setts')); [|done].
  intros st' s _ Hst'. simpl. by apply Forall_snoc_2.
Qed.

Lemma classifyVariance_status cfg txn s expected variance :
  (classifyVariance cfg txn s expected variance).1 = StatusMatched ∨
  (classifyVariance cfg txn s expected variance).1 = StatusMatchedWithVariance.
Proof.
  unfold classifyVariance. repeat case_match; simpl; auto.
Qed.

Lemma matchedResult_status cfg id txn s :
  rr_Status (matchedResult cfg id txn s) = StatusMatched ∨
  rr_Status (matchedResult cfg id txn s) = StatusMatchedWithVariance.
Proof.
  destruct (matchedResult_fields cfg id txn s) as (_ & _ & _ & _ & _ & -> & _).
  apply classifyVariance_status.
Qed.

Lemma runPhases_unsettled_bare range cfg runID txns setts :
  Forall (λ r, rr_Status r = StatusUnsettled →
               rr_VarianceAmount r = 0%Q ∧ rr_DaysToSettle r = None)
    (results (runPhases range cfg runID txns setts)).
Proof.
  apply runPhases_Forall; try (intros; simpl; done).
  intros id txn s Hst. by destruct (matchedResult_status cfg id txn s) as [H|H];
    rewrite H in Hst.
Qed.

(** C10. Whenever the high-priority threshold is strictly positive, no
    outcome with status unsettled is in the high-priority list:
    unsettled outcomes are emitted with variance amount 0 and no
    days-to-settle value, so neither ground can hold for them. *)
Theorem unsettled_never_high_priority (range : MapRange) (sortSlice : SortSlice)
    (now : Time) (store : Store) (cfg : ReconciliationConfig) (runID : string) :
  SortSliceSpec sortSlice →
  (0 < HighPriorityThreshold cfg)%Q →
  let report := Run range sortSlice now store cfg runID in
  (∀ r, r ∈ Results report → rr_Status r = StatusUnsettled →
        rr_VarianceAmount r = 0%Q ∧ rr_DaysToSettle r = None ∧
        largeVariance cfg r = false ∧ lateSettlement cfg r = false) ∧
  (∀ r, r ∈ HighPriority report → rr_Status r ≠ StatusUnsettled).
Proof.
  intros Hsort Hthr report.
  assert (Hbare : ∀ r, r ∈ Results report → rr_Status r = StatusUnsettled →
                       rr_VarianceAmount r = 0%Q ∧ rr_DaysToSettle r = None ∧
                       largeVariance cfg r = false ∧ lateSettlement cfg r = false).
  { intros r Hr Hst. subst report. rewrite Run_Results in Hr.
    pose proof (runPhases_unsettled_bare range cfg runID
                  (ListTransactions range store) (ListSettlements range store)) as Hall.
    rewrite Forall_forall in Hall. destruct (Hall r Hr Hst) as [Hvar Hdays].
    repeat split; try done.
    - unfold largeVariance. rewrite Hvar. apply andb_false_iff. right.
      apply not_true_iff_false. rewrite Qgeb_true. by apply Qlt_not_le.
    - unfold lateSettlement. by rewrite Hdays. }
  split; [exact Hbare|].
  intros r Hr Hst.
  pose proof (Run_HighPriority_perm range sortSlice now store cfg runID Hsort) as Hperm.
  fold report in Hperm. rewrite Hperm in Hr.
  apply list_elem_of_filter in Hr as [Hq Hr].
  destruct (Hbare r Hr Hst) as (_ & _ & Hlarge & Hlate).
  unfold qualifies in Hq. by rewrite Hlarge, Hlate in Hq.
Qed.

Lemma unsettled_never_high_priority_witness :
  SortSliceSpec sortStable ∧
  (0 < HighPriorityThreshold DefaultConfig)%Q ∧
  let report := Run rangeCanonical sortStable 0 storeUnsettled DefaultConfig "RUN" in
  (∀ r, r ∈ Results report → rr_Status r = StatusUnsettled →
        rr_VarianceAmount r = 0%Q ∧ rr_DaysToSettle r = None ∧
        largeVariance DefaultConfig r = false ∧
        lateSettlement DefaultConfig r = false) ∧
  (∀ r, r ∈ HighPriority report → rr_Status r ≠ StatusUnsettled).
Proof.
  split; [exact sortStable_spec|]. split; [reflexivity|].
  apply (unsettled_never_high_priority rangeCanonical sortStable 0 storeUnsettled
           DefaultConfig "RUN" sortStable_spec).
  reflexivity.
Defined.

(** With a threshold of 0 the unsettled outcome is listed: the
    hypothesis of a positive threshold is needed. *)
Example unsettled_listed_at_threshold_0 :
  rr_Status <$> HighPriority (Run rangeCanonical sortStable 0 storeUnsettled
                                configThreshold0 "RUN") = [StatusUnsettled].
Proof. vm_compute. reflexivity. Qed.

Example storeUnsettled_run :
  rr_Status <$> Results (Run rangeCanonical sortStable 0 storeUnsettled
                           DefaultConfig "RUN") = [StatusUnsettled].
Proof. vm_compute. reflexivity. Qed.

(** ** Variance of the outcomes *)

(** Phase 2 subtracts the converted amount. *)
Lemma matchedResult_variance cfg id txn s :
  rr_VarianceAmount (matchedResult cfg id txn s) =
  (st_GrossAmount s -
   convertAmount cfg (tx_Amount txn) (tx_Currency txn) (st_Currency s))%Q.
Proof. by destruct (matchedResult_fields cfg id txn s) as (_ & _ & _ & _ & -> & _). Qed.

(** Phase 1 subtracts the amount as authorized. *)
Lemma duplicateResult_variance id key n txn s :
  rr_VarianceAmount (duplicateResult id key n (Some txn) s) =
  (st_GrossAmount s - tx_Amount txn)%Q.
Proof. done. Qed.

Example single_settlement_variance_converted :
  let report := Run rangeCanonical sortStable 0 storeSingleFX DefaultConfig "RUN" in
  Results report = [matchedResult DefaultConfig "RR-RUN-0001" txnMXN settUSD1] ∧
  Forall (varianceFXAdjusted DefaultConfig storeSingleFX) (Results report).
Proof.
  intros report.
  assert (Hres : Results report
                 = [matchedResult DefaultConfig "RR-RUN-0001" txnMXN settUSD1])
    by (vm_compute; reflexivity).
  split; [exact Hres|].
  rewrite Hres. constructor; [|constructor].
  intros t s Ht Hs. vm_compute in Ht, Hs.
  injection Ht as <-. injection Hs as <-. vm_compute. reflexivity.
Qed.

(** C4 fails on the code. A transaction of 100 MXN with two settlements
    of 5.80 USD under its processor key: both outcomes are duplicates
    that refer to the transaction and to a settlement, their variance is
    5.80 - 100 = -94.20, and the variance against the converted amount
    (100 MXN = 5.80 USD) is 0. *)
Theorem duplicate_variance_not_converted :
  let report := Run rangeCanonical sortStable 0 storeDuplicateFX DefaultConfig "RUN" in
  Results report =
    [duplicateResult "RR-RUN-0001" "P1:PT1" 2 (Some txnMXN) settUSD1;
     duplicateResult "RR-RUN-0002" "P1:PT1" 2 (Some txnMXN) settUSD2] ∧
  Forall (λ r, rr_TransactionID r = "T1" ∧
               (rr_VarianceAmount r == - (942 # 10))%Q ∧
               ¬ varianceFXAdjusted DefaultConfig storeDuplicateFX r)
    (Results report) ∧
  (st_GrossAmount settUSD1 -
   convertAmount DefaultConfig (tx_Amount txnMXN) (tx_Currency txnMXN)
     (st_Currency settUSD1) == 0)%Q.
Proof.
  intros report.
  assert (Hres : Results report =
                 [duplicateResult "RR-RUN-0001" "P1:PT1" 2 (Some txnMXN) settUSD1;
                  duplicateResult "RR-RUN-0002" "P1:PT1" 2 (Some txnMXN) settUSD2])
    by (vm_compute; reflexivity).
  split; [exact Hres|]. split; [|vm_compute; reflexivity].
  rewrite Hres.
  apply Forall_cons; split; [|apply Forall_cons; split; [|apply Forall_nil_2]];
    (split; [vm_compute; reflexivity|split; [vm_compute; reflexivity|]]).
  - intros H. specialize (H txnMXN settUSD1).
    assert (Hq : (rr_VarianceAmount
                    (duplicateResult "RR-RUN-0001" "P1:PT1" 2 (Some txnMXN) settUSD1) ==
                  st_GrossAmount settUSD1 -
                  convertAmount DefaultConfig (tx_Amount txnMXN) (tx_Currency txnMXN)
                    (st_Currency settUSD1))%Q)
      by (apply H; vm_compute; reflexivity).
    vm_compute in Hq. discriminate Hq.
  - intros H. specialize (H txnMXN settUSD2).
    assert (Hq : (rr_VarianceAmount
                    (duplicateResult "RR-RUN-0002" "P1:PT1" 2 (Some txnMXN) settUSD2) ==
                  st_GrossAmount settUSD2 -
                  convertAmount DefaultConfig (tx_Amount txnMXN) (tx_Currency txnMXN)
                    (st_Currency settUSD2))%Q)
      by (apply H; vm_compute; reflexivity).
    vm_compute in Hq. discriminate Hq.
Qed.

(** ** Grouping the settlements by processor key *)

Lemma settlementsByKey_snoc setts s :
  settlementsByKey (setts ++ [s]) =
  <[settKey s := default [] (settlementsByKey setts !! settKey s) ++ [s]]>
    (settlementsByKey setts).
Proof. unfold settlementsByKey. by rewrite foldl_app. Qed.

Lemma settlementsByKey_lookup setts k :
  settlementsByKey setts !! k =
  match filter (λ s, settKey s = k) setts with
  | [] => None
  | g => Some g
  end.
Proof.
  induction setts as [|s setts IH] using rev_ind; [done|].
  rewrite settlementsByKey_snoc, filter_app.
  rewrite filter_cons, filter_nil.
  destruct (decide (settKey s = k)) as [Heq|Hne].
  - rewrite Heq, lookup_insert_eq, IH.
    by destruct (filter _ setts).
  - rewrite lookup_insert_ne by done. by rewrite IH, app_nil_r.
Qed.

Lemma settlementsByKey_Some setts k g :
  settlementsByKey setts !! k = Some g →
  g = filter (λ s, settKey s = k) setts.
Proof.
  rewrite settlementsByKey_lookup. destruct (filter _ setts); congruence.
Qed.

Lemma filter_none {A} (P : A → Prop) `{∀ x, Decision (P x)} (l : list A) :
  (∀ x, x ∈ l → ¬ P x) → filter P l = [].
Proof.
  induction l as [|x l IH]; intros Hnone; [done|].
  rewrite filter_cons_False by (apply Hnone; by left).
  apply IH. intros y Hy. apply Hnone. by right.
Qed.

Lemma filter_disjoint_union {A} (P Q R : A → Prop)
    `{∀ x, Decision (P x)} `{∀ x, Decision (Q x)} `{∀ x, Decision (R x)}
    (l : list A) :
  (∀ x, P x → Q x → False) → (∀ x, R x ↔ P x ∨ Q x) →
  filter P l ++ filter Q l ≡ₚ filter R l.
Proof.
  intros Hdisj HR. induction l as [|x l IH]; [done|].
  destruct (decide (P x)) as [HP|HnP].
  - assert (HRx : R x) by (apply HR; by left).
    assert (HnQ : ¬ Q x) by (intros HQ; by eapply Hdisj).
    rewrite (filter_cons_True P), (filter_cons_True R), (filter_cons_False Q) by done.
    simpl. by f_equiv.
  - rewrite (filter_cons_False P) by done.
    destruct (decide (Q x)) as [HQ|HnQ].
    + assert (HRx : R x) by (apply HR; by right).
      rewrite (filter_cons_True Q), (filter_cons_True R) by done.
      rewrite <- Permutation_middle. by f_equiv.
    + assert (HnR : ¬ R x) by (rewrite HR; tauto).
      by rewrite (filter_cons_False Q), (filter_cons_False R) by done.
Qed.

(** The groups of distinct keys, put end to end, are the settlements
    whose key is among those keys. *)
Lemma concat_groups setts (entries : list (string * list SettlementRecord)) :
  NoDup entries.*1 →
  (∀ k g, (k, g) ∈ entries → g = filter (λ s, settKey s = k) setts) →
  concat entries.*2 ≡ₚ filter (λ s, settKey s ∈ entries.*1) setts.
Proof.
  induction entries as [|[k g] entries IH]; intros Hnodup Hgroups; simpl.
  - symmetry. apply Permutation_nil_r, filter_none. intros s _ Hs.
    by apply elem_of_nil in Hs.
  - apply NoDup_cons in Hnodup as [Hk Hnodup].
    rewrite IH; [| done | intros; apply Hgroups; by right].
    rewrite (Hgroups k g) by by left.
    apply filter_disjoint_union.
    + intros s <- Hs. done.
    + intros s. rewrite elem_of_cons. done.
Qed.

(** ** What each phase does to the settlements *)

Lemma settlementView_matchedResult cfg id txn s :
  settlementView (matchedResult cfg id txn s) = Some (st_ID s, false).
Proof.
  unfold settlementView.
  destruct (matchedResult_fields cfg id txn s)
    as (_ & _ & -> & _ & _ & _ & _ & _ & -> & _).
  f_equal. f_equal. apply bool_decide_eq_false_2.
  by destruct (matchedResult_status cfg id txn s) as [-> | ->].
Qed.

Lemma foldl_phase1Settlement runID key n txn g st :
  let st' := foldl (phase1Settlement runID key n txn) st g in
  omap settlementView (results st') =
    omap settlementView (results st) ++ ((λ s, (st_ID s, true)) <$> g) ∧
  matchedSettlementIDs st' = list_to_set (st_ID <$> g) ∪ matchedSettlementIDs st ∧
  duplicateKeys st' = duplicateKeys st.
Proof.
  revert st. induction g as [|s g IH]; intros st; simpl.
  - rewrite app_nil_r. split; [done|]. split; [set_solver|done].
  - destruct (IH (phase1Settlement runID key n txn st s)) as (Hv & Hm & Hd).
    rewrite Hv, Hm, Hd. simpl. rewrite omap_app. simpl.
    rewrite <- app_assoc. split; [done|]. split; [set_solver|done].
Qed.

Lemma phase1Group_view runID byPK byOrder st entry :
  let st' := phase1Group runID byPK byOrder st entry in
  let group := if decide (isDupEntry entry) then entry.2 else [] in
  omap settlementView (results st') =
    omap settlementView (results st) ++ ((λ s, (st_ID s, true)) <$> group) ∧
  matchedSettlementIDs st' =
    list_to_set (st_ID <$> group) ∪ matchedSettlementIDs st ∧
  duplicateKeys st' =
    (if decide (isDupEntry entry) then {[entry.1]} else ∅) ∪ duplicateKeys st.
Proof.
  intros st' group. subst st' group.
  destruct (decide (isDupEntry entry)) as [Hdup|Hdup];
    destruct entry as [key [|s0 [|s1 g]]]; unfold isDupEntry in Hdup;
    simpl in Hdup; try lia.
  - match goal with |- context [phase1Group ?r ?a ?b ?s ?e] =>
      set (st' := phase1Group r a b s e) end.
    unfold phase1Group in st'.
    destruct (foldl_phase1Settlement runID key (length (s0 :: s1 :: g))
                (findTransaction key (st_OrderReference s0) byPK byOrder)
                (s0 :: s1 :: g)
                {| results := results st; resultID := resultID st;
                   matchedTxnIDs := matchedTxnIDs st;
                   matchedSettlementIDs := matchedSettlementIDs st;
                   duplicateKeys := {[key]} ∪ duplicateKeys st |})
      as (Hv & Hm & Hd).
    split; [exact Hv|]. split; [exact Hm|exact Hd].
  - simpl. rewrite app_nil_r. split; [done|]. split; set_solver.
  - simpl. rewrite app_nil_r. split; [done|]. split; set_solver.
Qed.

Lemma foldl_phase1Group runID byPK byOrder entries st :
  let st' := foldl (phase1Group runID byPK byOrder) st entries in
  let dups := filter isDupEntry entries in
  omap settlementView (results st') =
    omap settlementView (results st) ++ ((λ s, (st_ID s, true)) <$> concat dups.*2) ∧
  matchedSettlementIDs st' =
    list_to_set (st_ID <$> concat dups.*2) ∪ matchedSettlementIDs st ∧
  duplicateKeys st' = list_to_set dups.*1 ∪ duplicateKeys st.
Proof.
  revert st. induction entries as [|entry entries IH]; intros st; simpl.
  - rewrite app_nil_r. split; [done|]. split; set_solver.
  - destruct (IH (phase1Group runID byPK byOrder st entry)) as (Hv & Hm & Hd).
    destruct (phase1Group_view runID byPK byOrder st entry) as (Hv1 & Hm1 & Hd1).
    rewrite Hv, Hm, Hd, Hv1, Hm1, Hd1. rewrite filter_cons.
    destruct (decide (isDupEntry entry)); simpl.
    + rewrite fmap_app, <- app_assoc. split; [done|].
      rewrite fmap_app, list_to_set_app_L. split; set_solver.
    + rewrite app_nil_r. split; [done|]. split; set_solver.
Qed.

Lemma foldl_phase2Settlement runID cfg byPK byOrder setts st :
  NoDup (st_ID <$> setts) →
  (∀ s, s ∈ setts → settKey s ∉ duplicateKeys st →
        st_ID s ∉ matchedSettlementIDs st) →
  let st' := foldl (phase2Settlement runID cfg byPK byOrder) st setts in
  omap settlementView (results st') =
    omap settlementView (results st) ++
    ((λ s, (st_ID s, false)) <$> filter (λ s, settKey s ∉ duplicateKeys st) setts) ∧
  duplicateKeys st' = duplicateKeys st.
Proof.
  revert st. induction setts as [|s setts IH]; intros st Hnodup Hfresh; simpl.
  - by rewrite app_nil_r.
  - rewrite fmap_cons in Hnodup. apply NoDup_cons in Hnodup as [Hs Hnodup].
    rewrite filter_cons.
    destruct (decide (settKey s ∉ duplicateKeys st)) as [Hkey|Hkey].
    + assert (Hid : st_ID s ∉ matchedSettlementIDs st)
        by (apply Hfresh; [by left|done]).
      set (st1 := phase2Settlement runID cfg byPK byOrder st s).
      assert (Hst1 : omap settlementView (results st1) =
                     omap settlementView (results st) ++ [(st_ID s, false)] ∧
                     duplicateKeys st1 = duplicateKeys st ∧
                     matchedSettlementIDs st1 = {[st_ID s]} ∪ matchedSettlementIDs st).
      { subst st1. unfold phase2Settlement.
        rewrite !bool_decide_eq_false_2 by done.
        destruct (findTransaction _ _ _ _) as [txn|]; simpl;
          rewrite omap_app; simpl; [|done].
        by rewrite settlementView_matchedResult. }
      destruct Hst1 as (Hv1 & Hd1 & Hm1).
      destruct (IH st1) as (Hv & Hd); [done| |].
      * intros s' Hs' Hkey'. rewrite Hm1. rewrite Hd1 in Hkey'.
        apply not_elem_of_union. split.
        -- apply not_elem_of_singleton. intros Heq. apply Hs. rewrite <- Heq.
           by apply list_elem_of_fmap_2.
        -- apply Hfresh; [by right|done].
      * rewrite Hv, Hd, Hv1, Hd1, <- app_assoc. done.
    + assert (Hst1 : phase2Settlement runID cfg byPK byOrder st s = st).
      { unfold phase2Settlement. case_bool_decide; [done|].
        rewrite bool_decide_eq_true_2; [done|].
        by destruct (decide (settKey s ∈ duplicateKeys st)). }
      rewrite Hst1. apply IH; [done|].
      intros s' Hs'. apply Hfresh. by right.
Qed.

Lemma foldl_phase3Transaction_view runID txns st :
  omap settlementView (results (foldl (phase3Transaction runID) st txns)) =
  omap settlementView (results st).
Proof.
  revert st. induction txns as [|t txns IH]; intros st; simpl; [done|].
  rewrite IH. unfold phase3Transaction. case_bool_decide; [done|].
  simpl. rewrite omap_app. simpl. by rewrite app_nil_r.
Qed.

Lemma elem_of_concat {A} (x : A) (ls : list (list A)) :
  x ∈ concat ls ↔ ∃ l, x ∈ l ∧ l ∈ ls.
Proof.
  induction ls as [|l ls IH]; simpl.
  - split; [by intros ?%elem_of_nil|]. by intros (l & _ & ?%elem_of_nil).
  - rewrite elem_of_app, IH. split.
    + intros [Hx|(l' & Hx & Hl')]; [exists l|exists l']; split; try done;
        [by left|by right].
    + intros (l' & Hx & Hl'). apply elem_of_cons in Hl' as [->|Hl']; eauto.
Qed.

Lemma NoDup_fmap_eq {A B} (f : A → B) (l : list A) (x y : A) :
  NoDup (f <$> l) → x ∈ l → y ∈ l → f x = f y → x = y.
Proof.
  induction l as [|z l IH]; intros Hnodup Hx Hy Heq; [by apply elem_of_nil in Hx|].
  rewrite fmap_cons in Hnodup. apply NoDup_cons in Hnodup as [Hz Hnodup].
  apply elem_of_cons in Hx as [->|Hx]; apply elem_of_cons in Hy as [->|Hy].
  - done.
  - exfalso. apply Hz. rewrite Heq. by apply list_elem_of_fmap_2.
  - exfalso. apply Hz. rewrite <- Heq. by apply list_elem_of_fmap_2.
  - by apply IH.
Qed.

(** The settlements seen through the outcomes of a run: each settlement
    of the snapshot once, as a duplicate exactly when its processor key
    occurs more than once. *)
Lemma runPhases_settlementViews range cfg runID txns setts :
  MapRangeSpec range →
  NoDup (st_ID <$> setts) →
  omap settlementView (results (runPhases range cfg runID txns setts)) ≡ₚ
  (λ s, (st_ID s, bool_decide (keyDuplicated setts s))) <$> setts.
Proof.
  intros Hrange Hnodup. unfold runPhases.
  set (byPK := txnByProcessorKey txns). set (byOrder := txnByOrderID txns).
  set (m := settlementsByKey setts). set (es := range _ m).
  rewrite foldl_phase3Transaction_view.
  destruct (foldl_phase1Group runID byPK byOrder es initState) as (Hv1 & Hm1 & Hd1).
  set (dups := filter isDupEntry es) in *.
  set (st1 := foldl (phase1Group runID byPK byOrder) initState es) in *.
  simpl in Hv1, Hm1, Hd1.
  assert (Hes : ∀ k g, (k, g) ∈ es → g = filter (λ s, settKey s = k) setts).
  { intros k g Hin. apply settlementsByKey_Some, elem_of_map_to_list.
    fold m. by rewrite <- (Hrange _ m). }
  assert (HnodupK : NoDup dups.*1).
  { apply (sublist_NoDup _ es.*1).
    - unfold es. rewrite (Hrange _ m). apply NoDup_fst_map_to_list.
    - apply fmap_sublist, sublist_filter. }
  assert (Hkey : ∀ s, settKey s ∈ dups.*1 ↔ keyDuplicated setts s).
  { intros s. split.
    - intros Hin. apply list_elem_of_fmap in Hin as ([k g] & Hk & Hin).
      simpl in Hk. subst k. apply list_elem_of_filter in Hin as [Hdup Hin].
      unfold isDupEntry in Hdup. simpl in Hdup. by rewrite (Hes _ _ Hin) in Hdup.
    - intros Hdup. unfold keyDuplicated in Hdup.
      pose proof (settlementsByKey_lookup setts (settKey s)) as Hl.
      destruct (filter (λ s', settKey s' = settKey s) setts) as [|x g] eqn:Hg;
        [simpl in Hdup; lia|].
      apply list_elem_of_fmap. exists (settKey s, x :: g). split; [done|].
      apply list_elem_of_filter. split; [exact Hdup|].
      unfold es. rewrite (Hrange _ m). apply elem_of_map_to_list.
      unfold m. by rewrite Hl. }
  assert (HD : ∀ k, k ∈ duplicateKeys st1 ↔ k ∈ dups.*1).
  { intros k. rewrite Hd1, elem_of_union, elem_of_list_to_set.
    split; [intros [H|H]; [done|by apply elem_of_empty in H]|by left]. }
  destruct (foldl_phase2Settlement runID cfg byPK byOrder setts st1 Hnodup)
    as (Hv2 & _).
  { intros s Hs Hk Hid. apply Hk. rewrite Hm1 in Hid.
    apply elem_of_union in Hid as [Hid|Hid]; [|by apply elem_of_empty in Hid].
    apply elem_of_list_to_set, list_elem_of_fmap in Hid as (s' & Heq & Hs').
    apply elem_of_concat in Hs' as (g & Hs'g & Hg).
    apply list_elem_of_fmap in Hg as ([k g'] & Hgeq & Hkg). simpl in Hgeq. subst g'.
    assert (Hkg' := Hkg). apply list_elem_of_filter in Hkg' as [_ Hin].
    rewrite (Hes _ _ Hin) in Hs'g. apply list_elem_of_filter in Hs'g as [Hk' Hs'].
    assert (s = s') as <- by (by eapply (NoDup_fmap_eq st_ID)).
    apply HD. rewrite Hk'. by apply (list_elem_of_fmap_2 fst _ (k, g)). }
  rewrite Hv2, Hv1. clear Hv2 Hv1.
  rewrite (concat_groups setts dups HnodupK).
  2:{ intros k g Hin. apply Hes. by apply list_elem_of_filter in Hin as [_ Hin]. }
  rewrite (list_filter_iff (λ s, settKey s ∉ duplicateKeys st1)
             (λ s, ¬ settKey s ∈ dups.*1)) by (intros s; by rewrite HD).
  rewrite <- (filter_app_complement (λ s, settKey s ∈ dups.*1) setts) at 3.
  rewrite fmap_app. f_equiv.
  - match goal with |- ?a ≡ₚ ?b => assert (a = b) as ->; [|done] end.
    apply Forall_fmap_ext_1, Forall_forall. intros s [Hs _]%list_elem_of_filter.
    f_equal. symmetry. apply bool_decide_eq_true_2. by apply Hkey.
  - match goal with |- ?a ≡ₚ ?b => assert (a = b) as ->; [|done] end.
    apply Forall_fmap_ext_1, Forall_forall. intros s [Hs _]%list_elem_of_filter.
    f_equal. symmetry. apply bool_decide_eq_false_2. by rewrite <- Hkey.
Qed.

(** ** What each phase does to the transactions *)

Lemma covered_snoc id rs r : covered id rs → covered id (rs ++ [r]).
Proof.
  intros (r' & Hin & H). exists r'. split; [|done]. apply elem_of_app. by left.
Qed.

Lemma covered_last id rs r :
  hasTransaction r → rr_TransactionID r = id → covered id (rs ++ [r]).
Proof.
  intros Hhas Hid. exists r. split; [|done]. apply elem_of_app. right. by left.
Qed.

Lemma txnsCovered_phase1Settlement runID key n txn st s :
  txnsCovered st → txnsCovered (phase1Settlement runID key n txn st s).
Proof.
  intros Hcov id Hid. simpl in *. destruct txn as [t|]; simpl in *.
  - apply elem_of_union in Hid as [Hid|Hid].
    + apply elem_of_singleton in Hid as ->.
      apply covered_last; [by eexists|done].
    + by apply covered_snoc, Hcov.
  - by apply covered_snoc, Hcov.
Qed.

Lemma txnsCovered_phase1Group runID byPK byOrder st entry :
  txnsCovered st → txnsCovered (phase1Group runID byPK byOrder st entry).
Proof.
  intros Hcov. destruct entry as [key [|s0 [|s1 g]]]; simpl; try done.
  apply (foldl_invariant txnsCovered (phase1Settlement runID key _ _)
           (s0 :: s1 :: g)).
  - intros. by apply txnsCovered_phase1Settlement.
  - exact Hcov.
Qed.

Lemma txnsCovered_phase2Settlement runID cfg byPK byOrder st s :
  txnsCovered st → txnsCovered (phase2Settlement runID cfg byPK byOrder st s).
Proof.
  intros Hcov. unfold phase2Settlement. repeat case_bool_decide; try done.
  destruct (findTransaction _ _ _ _) as [txn|]; intros id Hid; simpl in *.
  - apply elem_of_union in Hid as [Hid|Hid].
    + apply elem_of_singleton in Hid as ->.
      destruct (matchedResult_fields cfg (resultIdent runID (S (resultID st))) txn s)
        as (_ & Ht & _ & _ & _ & _ & _ & Hauth & _).
      apply covered_last; [|done]. unfold hasTransaction. rewrite Hauth. by eexists.
    + by apply covered_snoc, Hcov.
  - by apply covered_snoc, Hcov.
Qed.

Lemma foldl_phase3Transaction_covered runID txns st :
  txnsCovered st →
  txnsCovered (foldl (phase3Transaction runID) st txns) ∧
  (∀ id, covered id (results st) →
         covered id (results (foldl (phase3Transaction runID) st txns))) ∧
  (∀ t, t ∈ txns →
        covered (tx_ID t) (results (foldl (phase3Transaction runID) st txns))).
Proof.
  revert st. induction txns as [|t txns IH]; intros st Hcov; simpl.
  - split; [done|]. split; [done|]. by intros t ?%elem_of_nil.
  - set (st1 := phase3Transaction runID st t).
    assert (Hmono : ∀ id, covered id (results st) → covered id (results st1)).
    { intros id H. subst st1. unfold phase3Transaction.
      case_bool_decide; [done|]. by apply covered_snoc. }
    assert (Hcov1 : txnsCovered st1).
    { intros id Hid. apply Hmono, Hcov. subst st1. unfold phase3Transaction in Hid.
      by case_bool_decide. }
    assert (Ht : covered (tx_ID t) (results st1)).
    { subst st1. unfold phase3Transaction. case_bool_decide as Hin.
      - by apply Hcov.
      - apply covered_last; [by eexists|done]. }
    destruct (IH st1 Hcov1) as (Hc & Hm & Hall).
    split; [done|]. split; [by auto|].
    intros t' [->|Ht']%elem_of_cons; auto.
Qed.

Lemma runPhases_covered range cfg runID txns setts t :
  t ∈ txns → covered (tx_ID t) (results (runPhases range cfg runID txns setts)).
Proof.
  intros Ht. unfold runPhases.
  apply foldl_phase3Transaction_covered; [|done].
  apply (foldl_invariant txnsCovered);
    [intros; by apply txnsCovered_phase2Settlement|].
  apply (foldl_invariant txnsCovered);
    [intros; by apply txnsCovered_phase1Group|].
  by intros id ?%elem_of_empty.
Qed.

(** ** The store and its snapshots *)

Lemma store_wf_New : store_wf Store_New.
Proof. split; apply map_Forall_empty. Qed.

Lemma store_wf_AddTransactions s txns :
  store_wf s → store_wf (AddTransactions s txns).1.
Proof.
  intros Hwf. unfold AddTransactions.
  apply (foldl_invariant (λ acc : Store * Z, store_wf acc.1)); [|done].
  intros [s' count] t _ [Ht Hs]. simpl in *. split; simpl; [|done].
  by apply map_Forall_insert_2.
Qed.

Lemma store_wf_AddSettlements s recs :
  store_wf s → store_wf (AddSettlements s recs).1.
Proof.
  intros Hwf. unfold AddSettlements.
  apply (foldl_invariant (λ acc : Store * Z, store_wf acc.1)); [|done].
  intros [s' count] r _ [Ht Hs]. simpl in *. split; simpl; [done|].
  by apply map_Forall_insert_2.
Qed.

Lemma store_wf_mkStore txns setts : store_wf (mkStore txns setts).
Proof.
  apply store_wf_AddSettlements, store_wf_AddTransactions, store_wf_New.
Qed.

Lemma range_elem_of (range : MapRange) {A} (m : gmap string A) k x :
  MapRangeSpec range → (k, x) ∈ range A m ↔ m !! k = Some x.
Proof. intros Hrange. by rewrite (Hrange A m), elem_of_map_to_list. Qed.

Lemma snapshot_keys (range : MapRange) {A} (m : gmap string A) (ident : A → string) :
  MapRangeSpec range →
  map_Forall (λ k x, ident x = k) m →
  ident <$> (range A m).*2 = (range A m).*1.
Proof.
  intros Hrange Hwf. rewrite <- list_fmap_compose.
  apply Forall_fmap_ext_1, Forall_forall. intros [k x] Hin. simpl.
  eapply (Hwf k x), range_elem_of; done.
Qed.

Lemma snapshot_NoDup (range : MapRange) {A} (m : gmap string A) (ident : A → string) :
  MapRangeSpec range →
  map_Forall (λ k x, ident x = k) m →
  NoDup (ident <$> (range A m).*2).
Proof.
  intros Hrange Hwf. rewrite (snapshot_keys range m ident Hrange Hwf).
  rewrite (Hrange A m). apply NoDup_fst_map_to_list.
Qed.

Lemma snapshot_elem_of (range : MapRange) {A} (m : gmap string A) x :
  MapRangeSpec range → x ∈ (range A m).*2 ↔ ∃ k, m !! k = Some x.
Proof.
  intros Hrange. rewrite list_elem_of_fmap. split.
  - intros ([k y] & -> & Hin). exists k. by apply (range_elem_of range m).
  - intros (k & Hk). exists (k, x). split; [done|]. by apply range_elem_of.
Qed.

Lemma snapshot_length (range : MapRange) {A} (m : gmap string A) :
  MapRangeSpec range → length (range A m).*2 = size m.
Proof. intros Hrange. by rewrite length_fmap, (Hrange A m), length_map_to_list. Qed.

(** ** Counting the outcomes of a record *)


Lemma length_omap_le {A B} (f : A → option B) (l : list A) :
  (length (omap f l) ≤ length l)%nat.
Proof.
  induction l as [|x l IH]; [done|].
  change (omap f (x :: l))
    with (match f x with Some y => y :: omap f l | None => omap f l end).
  destruct (f x); simpl; lia.
Qed.


Lemma length_filter_NoDup {A} (ident : A → string) (l : list A) (x : A) :
  NoDup (ident <$> l) → x ∈ l →
  length (filter (λ y, ident y = ident x) l) = 1%nat.
Proof.
  induction l as [|z l IH]; intros Hnodup Hx; [by apply elem_of_nil in Hx|].
  rewrite fmap_cons in Hnodup. apply NoDup_cons in Hnodup as [Hz Hnodup].
  rewrite filter_cons. apply elem_of_cons in Hx as [->|Hx].
  - rewrite decide_True by done. simpl. f_equal.
    rewrite filter_none; [done|]. intros y Hy Heq. apply Hz. rewrite <- Heq.
    by apply list_elem_of_fmap_2.
  - rewrite decide_False; [by apply IH|]. intros Heq. apply Hz. rewrite Heq.
    by apply list_elem_of_fmap_2.
Qed.


(** ** Exhaustiveness *)



Lemma Run_outcomes_length range sortSlice now store cfg runID :
  MapRangeSpec range → store_wf store →
  (size (transactions store) `max` size (settlements store) ≤
   length (Results (Run range sortSlice now store cfg runID)))%nat.
Proof.
  intros Hrange [Hwft Hwfs]. rewrite Run_Results.
  set (txns := ListTransactions range store).
  set (setts := ListSettlements range store).
  set (outcomes := results (runPhases range cfg runID txns setts)).
  apply Nat.max_lub.
  - rewrite <- (snapshot_length range (transactions store) Hrange).
    fold (ListTransactions range store). fold txns.
    rewrite <- (length_fmap tx_ID txns), <- (length_fmap rr_TransactionID outcomes).
    apply submseteq_length, NoDup_submseteq; [by apply snapshot_NoDup|].
    intros id (t & -> & Ht)%list_elem_of_fmap.
    destruct (runPhases_covered range cfg runID txns setts t Ht) as (r & Hr & _ & <-).
    by apply list_elem_of_fmap_2.
  - rewrite <- (snapshot_length range (settlements store) Hrange).
    fold (ListSettlements range store). fold setts.
    assert (Hnodup : NoDup (st_ID <$> setts)) by by apply snapshot_NoDup.
    pose proof (runPhases_settlementViews range cfg runID txns setts Hrange Hnodup)
      as Hviews.
    apply Permutation_length in Hviews. rewrite length_fmap in Hviews.
    rewrite <- Hviews. apply length_omap_le.
Qed.




(** * Further properties of the code *)

(** ** store.go: adding and reading records *)

Lemma AddTransactions_snoc s txns t :
  AddTransactions s (txns ++ [t]) =
  let '(s', count) := AddTransactions s txns in
  ({| transactions := <[tx_ID t := t]> (transactions s');
      settlements := settlements s' |},
   if decide (is_Some (transactions s' !! tx_ID t)) then count else count + 1).
Proof. unfold AddTransactions. by rewrite foldl_app. Qed.

Lemma AddSettlements_snoc s recs r :
  AddSettlements s (recs ++ [r]) =
  let '(s', count) := AddSettlements s recs in
  ({| transactions := transactions s';
      settlements := <[st_ID r := r]> (settlements s') |},
   if decide (is_Some (settlements s' !! st_ID r)) then count else count + 1).
Proof. unfold AddSettlements. by rewrite foldl_app. Qed.

Lemma last_filter_snoc {A} (P : A → Prop) `{∀ x, Decision (P x)} (l : list A) (x : A) :
  last (filter P (l ++ [x])) = if decide (P x) then Some x else last (filter P l).
Proof.
  rewrite filter_app, filter_cons, filter_nil.
  destruct (decide (P x)); [by rewrite last_snoc|by rewrite app_nil_r].
Qed.

Lemma size_insert_step {A} (m : gmap string A) k x :
  Z.of_nat (size (<[k := x]> m)) =
  Z.of_nat (size m) + (if decide (is_Some (m !! k)) then 0 else 1).
Proof.
  rewrite map_size_insert. destruct (m !! k) as [y|] eqn:Hk.
  - rewrite decide_True by eauto. simpl. lia.
  - rewrite decide_False by (by intros [? ?]). lia.
Qed.

Lemma AddTransactions_transactions s txns id :
  transactions (AddTransactions s txns).1 !! id =
    match last (filter (λ t, tx_ID t = id) txns) with
    | Some t => Some t
    | None => transactions s !! id
    end.
Proof.
  induction txns as [|t txns IH] using rev_ind; [done|].
  rewrite AddTransactions_snoc, last_filter_snoc.
  destruct (AddTransactions s txns) as [s' count]. simpl in *.
  destruct (decide (tx_ID t = id)) as [<-|Hne].
  - by rewrite lookup_insert_eq.
  - by rewrite lookup_insert_ne.
Qed.

Lemma AddTransactions_settlements s txns :
  settlements (AddTransactions s txns).1 = settlements s.
Proof.
  induction txns as [|t txns IH] using rev_ind; [done|].
  rewrite AddTransactions_snoc.
  by destruct (AddTransactions s txns) as [s' count].
Qed.

Lemma AddTransactions_size s txns :
  (AddTransactions s txns).2 =
    Z.of_nat (size (transactions (AddTransactions s txns).1)) -
    Z.of_nat (size (transactions s)) ∧
  0 ≤ (AddTransactions s txns).2 ≤ Z.of_nat (length txns).
Proof.
  induction txns as [|t txns IH] using rev_ind; [simpl; lia|].
  rewrite AddTransactions_snoc, length_app.
  destruct (AddTransactions s txns) as [s' count]. simpl in *.
  rewrite size_insert_step. case_decide; lia.
Qed.

(** X1. After [AddTransactions] a transaction identifier reads as the
    last transaction of the batch that carries it, and as before when
    the batch has none: a later record replaces an earlier one. The
    settlements are not touched. *)
Theorem AddTransactions_lookup (s : Store) (txns : list Transaction) (id : string) :
  GetTransaction (AddTransactions s txns).1 id =
    match last (filter (λ t, tx_ID t = id) txns) with
    | Some t => Some t
    | None => GetTransaction s id
    end ∧
  settlements (AddTransactions s txns).1 = settlements s.
Proof.
  unfold GetTransaction.
  split; [apply AddTransactions_transactions|apply AddTransactions_settlements].
Qed.

(** X2. After [AddSettlements] a settlement identifier reads as the
    last record of the batch that carries it, and as before when the
    batch has none. The transactions are not touched. *)
Theorem AddSettlements_lookup (s : Store) (recs : list SettlementRecord) (id : string) :
  GetSettlement (AddSettlements s recs).1 id =
    match last (filter (λ r, st_ID r = id) recs) with
    | Some r => Some r
    | None => GetSettlement s id
    end ∧
  transactions (AddSettlements s recs).1 = transactions s.
Proof.
  unfold GetSettlement.
  induction recs as [|r recs IH] using rev_ind; [done|].
  rewrite AddSettlements_snoc, last_filter_snoc.
  destruct (AddSettlements s recs) as [s' count]. simpl in *.
  destruct IH as [IH1 IH2]. split; [|done].
  destruct (decide (st_ID r = id)) as [<-|Hne].
  - by rewrite lookup_insert_eq.
  - by rewrite lookup_insert_ne.
Qed.

(** X3. The count [AddTransactions] returns is the number of
    identifiers that were not stored before: the growth of the map. It
    is between 0 and the length of the batch. *)
Theorem AddTransactions_count (s : Store) (txns : list Transaction) :
  (AddTransactions s txns).2 =
    Z.of_nat (size (transactions (AddTransactions s txns).1)) -
    Z.of_nat (size (transactions s)) ∧
  0 ≤ (AddTransactions s txns).2 ≤ Z.of_nat (length txns).
Proof. apply AddTransactions_size. Qed.

(** X4. The count [AddSettlements] returns is the number of
    identifiers that were not stored before, between 0 and the length
    of the batch. *)
Theorem AddSettlements_count (s : Store) (recs : list SettlementRecord) :
  (AddSettlements s recs).2 =
    Z.of_nat (size (settlements (AddSettlements s recs).1)) -
    Z.of_nat (size (settlements s)) ∧
  0 ≤ (AddSettlements s recs).2 ≤ Z.of_nat (length recs).
Proof.
  induction recs as [|r recs IH] using rev_ind; [simpl; lia|].
  rewrite AddSettlements_snoc, length_app.
  destruct (AddSettlements s recs) as [s' count]. simpl in *.
  rewrite size_insert_step. case_decide; lia.
Qed.

Lemma Store_eq (s1 s2 : Store) :
  transactions s1 = transactions s2 → settlements s1 = settlements s2 → s1 = s2.
Proof. destruct s1, s2. simpl. by intros -> ->. Qed.

(** X5. Uploading the same batch of transactions a second time changes
    nothing and reports no new record. *)
Theorem AddTransactions_idempotent (s : Store) (txns : list Transaction) :
  AddTransactions (AddTransactions s txns).1 txns = ((AddTransactions s txns).1, 0).
Proof.
  set (s1 := (AddTransactions s txns).1).
  assert (Heq : (AddTransactions s1 txns).1 = s1).
  { apply Store_eq.
    - apply map_eq. intros id.
      pose proof (AddTransactions_transactions s1 txns id) as H1.
      pose proof (AddTransactions_transactions s txns id) as H2.
      fold s1 in H2. rewrite H1.
      destruct (last _); [by rewrite H2|done].
    - apply AddTransactions_settlements. }
  destruct (AddTransactions_size s1 txns) as [Hcount _].
  rewrite Heq in Hcount.
  destruct (AddTransactions s1 txns) as [s2 count]. simpl in *. subst s2.
  f_equal. lia.
Qed.

Lemma snapshots_list_each_record_once_aux (range : MapRange) (s : Store) :
  MapRangeSpec range →
  store_wf s →
  (∀ t, t ∈ ListTransactions range s → GetTransaction s (tx_ID t) = Some t) ∧
  (∀ id t, GetTransaction s id = Some t → t ∈ ListTransactions range s).
Proof.
  intros Hrange [Hwft _]. unfold ListTransactions, GetTransaction. split.
  - intros t [k Hk]%snapshot_elem_of; [|done]. by rewrite (Hwft k t Hk).
  - intros id t Ht. apply snapshot_elem_of; eauto.
Qed.

(** X6. On a store that keeps each record under its identifier,
    [ListTransactions] and [ListSettlements] return every stored record
    exactly once, whatever the order in which the map is visited: the
    identifiers of the snapshot are distinct, a record is in the
    snapshot exactly when it is stored, and the snapshot has the size of
    the map. *)
Theorem snapshots_list_each_record_once (range : MapRange) (s : Store) :
  MapRangeSpec range →
  store_wf s →
  (NoDup (tx_ID <$> ListTransactions range s) ∧
   (∀ t, t ∈ ListTransactions range s ↔ GetTransaction s (tx_ID t) = Some t) ∧
   length (ListTransactions range s) = size (transactions s)) ∧
  (NoDup (st_ID <$> ListSettlements range s) ∧
   (∀ r, r ∈ ListSettlements range s ↔ GetSettlement s (st_ID r) = Some r) ∧
   length (ListSettlements range s) = size (settlements s)).
Proof.
  intros Hrange [Hwft Hwfs]. split.
  - split; [by apply snapshot_NoDup|]. split; [|by apply snapshot_length].
    intros t. unfold ListTransactions, GetTransaction.
    rewrite snapshot_elem_of by done. split; [|eauto].
    intros [k Hk]. by rewrite (Hwft k t Hk).
  - split; [by apply snapshot_NoDup|]. split; [|by apply snapshot_length].
    intros r. unfold ListSettlements, GetSettlement.
    rewrite snapshot_elem_of by done. split; [|eauto].
    intros [k Hk]. by rewrite (Hwfs k r Hk).
Qed.

Lemma snapshots_list_each_record_once_witness :
  MapRangeSpec rangeCanonical ∧
  store_wf storeFull ∧
  (NoDup (tx_ID <$> ListTransactions rangeCanonical storeFull) ∧
   (∀ t, t ∈ ListTransactions rangeCanonical storeFull ↔
         GetTransaction storeFull (tx_ID t) = Some t) ∧
   length (ListTransactions rangeCanonical storeFull) =
     size (transactions storeFull)) ∧
  (NoDup (st_ID <$> ListSettlements rangeCanonical storeFull) ∧
   (∀ r, r ∈ ListSettlements rangeCanonical storeFull ↔
         GetSettlement storeFull (st_ID r) = Some r) ∧
   length (ListSettlements rangeCanonical storeFull) =
     size (settlements storeFull)).
Proof.
  split; [exact rangeCanonical_spec|]. split; [exact (store_wf_mkStore _ _)|].
  exact (snapshots_list_each_record_once rangeCanonical storeFull
           rangeCanonical_spec (store_wf_mkStore _ _)).
Defined.

(** ** The lookup indexes *)

Lemma index_lookup {A} (key : A → string) (l : list A) (k : string) :
  foldl (λ (m : gmap string A) x, <[key x := x]> m) ∅ l !! k =
  last (filter (λ x, key x = k) l).
Proof.
  induction l as [|x l IH] using rev_ind; [done|].
  rewrite foldl_app, last_filter_snoc. simpl.
  destruct (decide (key x = k)) as [<-|Hne].
  - by rewrite lookup_insert_eq.
  - by rewrite lookup_insert_ne.
Qed.

Lemma last_filter_Some {A} (P : A → Prop) `{∀ x, Decision (P x)} (l : list A) (x : A) :
  last (filter P l) = Some x → x ∈ l ∧ P x.
Proof.
  intros Hlast.
  assert (Hin : x ∈ filter P l).
  { destruct (filter P l) as [|y l'] using rev_ind; [done|].
    rewrite last_snoc in Hlast. injection Hlast as ->.
    apply elem_of_app. right. by left. }
  apply list_elem_of_filter in Hin. tauto.
Qed.

Lemma last_filter_None {A} (P : A → Prop) `{∀ x, Decision (P x)} (l : list A) :
  last (filter P l) = None ↔ ∀ x, x ∈ l → ¬ P x.
Proof.
  rewrite last_None. split.
  - intros Hnil x Hx HP.
    assert (Hin : x ∈ filter P l) by (by apply list_elem_of_filter).
    rewrite Hnil in Hin. by apply elem_of_nil in Hin.
  - apply filter_none.
Qed.

(** X7. The two indexes [Run] builds are last-write-wins: a key reads
    as the last transaction of the snapshot that carries it, and is
    absent when none does. *)
Theorem indexes_last_write_wins (txns : list Transaction) (k : string) :
  txnByProcessorKey txns !! k = last (filter (λ t, txnKey t = k) txns) ∧
  txnByOrderID txns !! k = last (filter (λ t, tx_OrderID t = k) txns).
Proof. split; apply index_lookup. Qed.

(** X8. What [findTransaction] returns on the indexes of a snapshot: a
    transaction of the snapshot that carries the processor key, or,
    when no transaction carries the key and the order reference is not
    empty, one whose order identifier is the reference. It finds
    nothing exactly when no transaction carries the key and the
    reference is empty or carried by none; an empty reference never
    matches, even a transaction whose order identifier is empty. *)
Theorem findTransaction_on_snapshot (txns : list Transaction) (pk orderRef : string) :
  let found :=
    findTransaction pk orderRef (txnByProcessorKey txns) (txnByOrderID txns) in
  (∀ t, found = Some t →
        t ∈ txns ∧
        (txnKey t = pk ∨
         ((∀ t', t' ∈ txns → txnKey t' ≠ pk) ∧
          orderRef ≠ "" ∧ tx_OrderID t = orderRef))) ∧
  (found = None ↔
     (∀ t, t ∈ txns → txnKey t ≠ pk) ∧
     (orderRef = "" ∨ ∀ t, t ∈ txns → tx_OrderID t ≠ orderRef)).
Proof.
  intros found. subst found. unfold findTransaction.
  pose proof (index_lookup txnKey txns pk
              : txnByProcessorKey txns !! pk = _) as Hpk.
  pose proof (index_lookup tx_OrderID txns orderRef
              : txnByOrderID txns !! orderRef = _) as Hord.
  rewrite Hpk, Hord.
  destruct (last (filter (λ t, txnKey t = pk) txns)) as [t0|] eqn:Hlast.
  - apply last_filter_Some in Hlast as [Hin Hkey]. split.
    + intros t [= <-]. auto.
    + split; [done|]. intros [Hnone _]. exfalso. by apply (Hnone t0).
  - rewrite last_filter_None in Hlast.
    destruct (decide (orderRef = "")) as [->|Hne].
    + rewrite bool_decide_eq_false_2 by (by intros ?). split; [done|]. split; auto.
    + rewrite bool_decide_eq_true_2 by done. split.
      * intros t Ht. apply last_filter_Some in Ht as [Hin Hord']. auto.
      * rewrite last_filter_None. split.
        -- intros Hnone. split; [done|]. by right.
        -- intros [_ [?|Hnone]]; done.
Qed.

(** X9. The indexes the store offers hold stored transactions under
    their own keys, and every stored transaction's key and order
    identifier is in them, whatever the order in which the map is
    visited. *)
Theorem store_indexes_cover (range : MapRange) (s : Store) :
  MapRangeSpec range →
  store_wf s →
  let byKey := TransactionsByProcessorTxnID range s in
  let byOrder := TransactionsByOrderID range s in
  (∀ k t, byKey !! k = Some t →
          GetTransaction s (tx_ID t) = Some t ∧
          processorKey (tx_ProcessorName t) (tx_ProcessorTxnID t) = k) ∧
  (∀ k t, byOrder !! k = Some t →
          GetTransaction s (tx_ID t) = Some t ∧ tx_OrderID t = k) ∧
  (∀ id t, GetTransaction s id = Some t →
           is_Some (byKey !! processorKey (tx_ProcessorName t) (tx_ProcessorTxnID t)) ∧
           is_Some (byOrder !! tx_OrderID t)).
Proof.
  intros Hrange Hwf byKey byOrder.
  destruct (snapshots_list_each_record_once_aux range s Hrange Hwf) as [Hin Hstored].
  subst byKey byOrder. unfold TransactionsByProcessorTxnID, TransactionsByOrderID.
  fold (ListTransactions range s).
  split; [|split].
  - intros k t Hk.
    rewrite (index_lookup (λ t, tx_ProcessorName t +:+ ":" +:+ tx_ProcessorTxnID t)) in Hk.
    apply last_filter_Some in Hk as [Ht Hkey]. split; [by apply Hin|done].
  - intros k t Hk. rewrite (index_lookup tx_OrderID) in Hk.
    apply last_filter_Some in Hk as [Ht Hkey]. split; [by apply Hin|done].
  - intros id t Ht. apply Hstored in Ht.
    rewrite (index_lookup (λ t, tx_ProcessorName t +:+ ":" +:+ tx_ProcessorTxnID t)),
      (index_lookup tx_OrderID).
    split; apply not_eq_None_Some; rewrite last_filter_None;
      intros Hnone; by apply (Hnone t Ht).
Qed.

Lemma store_indexes_cover_witness :
  MapRangeSpec rangeCanonical ∧
  store_wf storeFull ∧
  let byKey := TransactionsByProcessorTxnID rangeCanonical storeFull in
  let byOrder := TransactionsByOrderID rangeCanonical storeFull in
  (∀ k t, byKey !! k = Some t →
          GetTransaction storeFull (tx_ID t) = Some t ∧
          processorKey (tx_ProcessorName t) (tx_ProcessorTxnID t) = k) ∧
  (∀ k t, byOrder !! k = Some t →
          GetTransaction storeFull (tx_ID t) = Some t ∧ tx_OrderID t = k) ∧
  (∀ id t, GetTransaction storeFull id = Some t →
           is_Some (byKey !! processorKey (tx_ProcessorName t) (tx_ProcessorTxnID t)) ∧
           is_Some (byOrder !! tx_OrderID t)).
Proof.
  split; [exact rangeCanonical_spec|]. split; [exact (store_wf_mkStore _ _)|].
  exact (store_indexes_cover rangeCanonical storeFull rangeCanonical_spec
           (store_wf_mkStore _ _)).
Defined.

(** ** The processor key *)

Lemma hasColon_cons c s :
  hasColon (String c s) = false → c ≠ ":"%char ∧ hasColon s = false.
Proof.
  simpl. intros [Hc Hs]%orb_false_iff. split; [|done].
  intros ->. by rewrite Ascii.eqb_refl in Hc.
Qed.

(** X10. Two pairs of a processor name and a processor transaction
    identifier have the same key only when they are the same pair,
    provided the names hold no colon. *)
Theorem processorKey_inj (name1 id1 name2 id2 : string) :
  hasColon name1 = false →
  hasColon name2 = false →
  processorKey name1 id1 = processorKey name2 id2 →
  name1 = name2 ∧ id1 = id2.
Proof.
  unfold processorKey. revert name2.
  induction name1 as [|c1 name1 IH]; intros [|c2 name2] H1 H2 Heq; simpl in Heq.
  - injection Heq as Heq. by subst.
  - apply hasColon_cons in H2 as [Hc _]. injection Heq as Hc2 _. by subst.
  - apply hasColon_cons in H1 as [Hc _]. injection Heq as Hc1 _. by subst.
  - apply hasColon_cons in H1 as [_ H1]. apply hasColon_cons in H2 as [_ H2].
    injection Heq as Hc Heq. subst c2.
    by destruct (IH name2 H1 H2 Heq) as [-> ->].
Qed.

Lemma processorKey_inj_witness :
  hasColon "PaySureMX" = false ∧
  hasColon "PaySureMX" = false ∧
  processorKey "PaySureMX" "PSM-001" = processorKey "PaySureMX" "PSM-001" ∧
  "PaySureMX" = "PaySureMX" ∧ "PSM-001" = "PSM-001".
Proof.
  split; [reflexivity|]. split; [reflexivity|]. split; [reflexivity|].
  apply (processorKey_inj "PaySureMX" "PSM-001" "PaySureMX" "PSM-001");
    reflexivity.
Defined.

(** With a colon in the name two different pairs share a key. *)
Example processorKey_collision :
  processorKey "a:b" "c" = processorKey "a" "b:c".
Proof. reflexivity. Qed.

(** ** Days to settle *)





Example daysBetween_47_hours : daysBetween baseTime (baseTime + 47 * hour) = 1.
Proof. reflexivity. Qed.

(** ** Outcomes of a run: shape and classification *)

Lemma matchedResult_wellShaped cfg id txn s : wellShaped (matchedResult cfg id txn s).
Proof.
  unfold wellShaped.
  destruct (matchedResult_status cfg id txn s) as [Hst|Hst]; rewrite Hst;
    unfold matchedResult; destruct (classifyVariance _ _ _ _ _); simpl;
    repeat split; by eexists.
Qed.

Lemma runPhases_wellShaped range cfg runID txns setts :
  Forall wellShaped (results (runPhases range cfg runID txns setts)).
Proof.
  apply runPhases_Forall.
  - intros id key n [t|] s; unfold wellShaped; simpl; repeat split; by eexists.
  - intros id s. unfold wellShaped. simpl. repeat split. by eexists.
  - apply matchedResult_wellShaped.
  - intros id txn. unfold wellShaped. simpl. repeat split. by eexists.
Qed.

(** X12. Which fields of an outcome of a run carry data is fixed by its
    status: an unsettled outcome has no settlement fields and variance
    0; an unexpected settlement has no transaction fields, expected
    amount 0 and the settled gross amount as variance; a matched or
    matched_with_variance outcome has both timestamps, days-to-settle,
    and variance = gross - expected; a duplicate has the settlement
    timestamp and, when its group found no transaction, expected amount
    0 and variance 0. *)
Theorem outcomes_wellShaped (range : MapRange) (sortSlice : SortSlice) (now : Time)
    (store : Store) (cfg : ReconciliationConfig) (runID : string) :
  Forall wellShaped (Results (Run range sortSlice now store cfg runID)).
Proof. rewrite Run_Results. apply runPhases_wellShaped. Qed.




(** ** The order of the outcomes and the unsettled transactions *)

Lemma foldl_appends {B} (P : ReconciliationResult → Prop)
    (f : RunState → B → RunState) (l : list B) (st : RunState) :
  (∀ st x, ∃ new, results (f st x) = results st ++ new ∧ Forall P new) →
  ∃ new, results (foldl f st l) = results st ++ new ∧ Forall P new.
Proof.
  intros Hstep. revert st. induction l as [|x l IH]; intros st; simpl.
  - exists []. by rewrite app_nil_r.
  - destruct (IH (f st x)) as (new2 & -> & H2).
    destruct (Hstep st x) as (new1 & -> & H1).
    exists (new1 ++ new2). rewrite <- app_assoc. split; [done|].
    by apply Forall_app.
Qed.

Lemma phase1Group_appends runID byPK byOrder st entry :
  ∃ new, results (phase1Group runID byPK byOrder st entry) = results st ++ new ∧
         Forall (λ r, rr_Status r = StatusDuplicate) new.
Proof.
  destruct entry as [key [|s0 [|s1 g]]];
    try (exists []; simpl; by rewrite app_nil_r).
  unfold phase1Group.
  destruct (foldl_appends (λ r, rr_Status r = StatusDuplicate)
              (phase1Settlement runID key (length (s0 :: s1 :: g))
                 (findTransaction key (st_OrderReference s0) byPK byOrder))
              (s0 :: s1 :: g)
              {| results := results st; resultID := resultID st;
                 matchedTxnIDs := matchedTxnIDs st;
                 matchedSettlementIDs := matchedSettlementIDs st;
                 duplicateKeys := {[key]} ∪ duplicateKeys st |})
    as (new & Hnew & Hall).
  - intros st' s. eexists. split; [simpl; reflexivity|].
    by apply Forall_singleton.
  - exists new. split; [exact Hnew|done].
Qed.

Lemma phase2Settlement_appends runID cfg byPK byOrder st s :
  ∃ new, results (phase2Settlement runID cfg byPK byOrder st s) = results st ++ new ∧
         Forall settledOnce new.
Proof.
  unfold phase2Settlement.
  repeat case_bool_decide; try (exists []; by rewrite app_nil_r).
  destruct (findTransaction _ _ _ _) as [txn|]; simpl; eexists; (split; [done|]);
    apply Forall_singleton; unfold settledOnce.
  - destruct (matchedResult_status cfg (resultIdent runID (S (resultID st))) txn s);
      auto.
  - simpl. auto.
Qed.

Lemma phase3Transaction_appends runID st txn :
  ∃ new, results (phase3Transaction runID st txn) = results st ++ new ∧
         Forall (λ r, rr_Status r = StatusUnsettled) new.
Proof.
  unfold phase3Transaction. case_bool_decide; [exists []; by rewrite app_nil_r|].
  eexists. split; [done|]. by apply Forall_singleton.
Qed.

Lemma foldl_phase3Transaction_ids runID txns st :
  ∃ new,
    results (foldl (phase3Transaction runID) st txns) = results st ++ new ∧
    Forall (λ r, rr_Status r = StatusUnsettled) new ∧
    rr_TransactionID <$> new =
      tx_ID <$> filter (λ t, tx_ID t ∉ matchedTxnIDs st) txns.
Proof.
  revert st. induction txns as [|t txns IH]; intros st; simpl.
  - exists []. by rewrite app_nil_r.
  - destruct (IH (phase3Transaction runID st t)) as (new & -> & Hall & Hids).
    rewrite filter_cons.
    destruct (decide (tx_ID t ∈ matchedTxnIDs st)) as [Hin|Hnin].
    + assert (Hst : phase3Transaction runID st t = st)
        by (unfold phase3Transaction; by rewrite bool_decide_eq_true_2).
      rewrite Hst in *. rewrite decide_False by tauto. by exists new.
    + assert (Hst : results (phase3Transaction runID st t) =
                    results st ++
                    [unsettledResult (resultIdent runID (S (resultID st))) t] ∧
                    matchedTxnIDs (phase3Transaction runID st t) = matchedTxnIDs st)
        by (unfold phase3Transaction; by rewrite bool_decide_eq_false_2).
      destruct Hst as [Hres Hm]. rewrite Hres, Hm in *.
      rewrite decide_True by done.
      exists (unsettledResult (resultIdent runID (S (resultID st))) t :: new).
      rewrite <- app_assoc. split; [done|]. split; [by constructor|].
      by rewrite !fmap_cons, Hids.
Qed.

(** The three phases, one after the other. *)
Lemma runPhases_phases (range : MapRange) cfg runID txns setts :
  let byPK := txnByProcessorKey txns in
  let byOrder := txnByOrderID txns in
  let st2 :=
    foldl (phase2Settlement runID cfg byPK byOrder)
      (foldl (phase1Group runID byPK byOrder) initState
         (range _ (settlementsByKey setts))) setts in
  ∃ duplicates settled unsettled,
    results st2 = duplicates ++ settled ∧
    results (runPhases range cfg runID txns setts) = results st2 ++ unsettled ∧
    Forall (λ r, rr_Status r = StatusDuplicate) duplicates ∧
    Forall settledOnce settled ∧
    Forall (λ r, rr_Status r = StatusUnsettled) unsettled ∧
    rr_TransactionID <$> unsettled =
      tx_ID <$> filter (λ t, tx_ID t ∉ matchedTxnIDs st2) txns.
Proof.
  intros byPK byOrder st2. subst st2. unfold runPhases. fold byPK byOrder.
  destruct (foldl_appends _ (phase1Group runID byPK byOrder)
              (range _ (settlementsByKey setts)) initState
              (λ st x, phase1Group_appends runID byPK byOrder st x))
    as (l1 & H1 & Hall1).
  set (st1 := foldl (phase1Group runID byPK byOrder) initState _) in *.
  destruct (foldl_appends _ (phase2Settlement runID cfg byPK byOrder) setts st1
              (λ st x, phase2Settlement_appends runID cfg byPK byOrder st x))
    as (l2 & H2 & Hall2).
  set (st2 := foldl (phase2Settlement runID cfg byPK byOrder) st1 setts) in *.
  destruct (foldl_phase3Transaction_ids runID txns st2) as (l3 & H3 & Hall3 & Hids).
  exists l1, l2, l3. rewrite H3, H2, H1. done.
Qed.

(** X14. The outcomes of a run stand in the order of the phases: first
    the duplicates, then the matched, matched_with_variance and
    unexpected settlements, last the unsettled transactions. *)
Theorem outcomes_in_phase_order (range : MapRange) (sortSlice : SortSlice)
    (now : Time) (store : Store) (cfg : ReconciliationConfig) (runID : string) :
  ∃ duplicates settled unsettled,
    Results (Run range sortSlice now store cfg runID) =
      duplicates ++ settled ++ unsettled ∧
    Forall (λ r, rr_Status r = StatusDuplicate) duplicates ∧
    Forall settledOnce settled ∧
    Forall (λ r, rr_Status r = StatusUnsettled) unsettled.
Proof.
  rewrite Run_Results.
  destruct (runPhases_phases range cfg runID (ListTransactions range store)
              (ListSettlements range store))
    as (l1 & l2 & l3 & H2 & H3 & Hall1 & Hall2 & Hall3 & _).
  exists l1, l2, l3. rewrite H3, H2, <- app_assoc. done.
Qed.

Lemma covered_snoc_inv id rs r :
  covered id (rs ++ [r]) →
  covered id rs ∨ (hasTransaction r ∧ rr_TransactionID r = id).
Proof.
  intros (r' & [Hin|Hin]%elem_of_app & Hhas & Hid).
  - left. by exists r'.
  - apply list_elem_of_singleton in Hin as ->. by right.
Qed.

Lemma coveredMarked_phase1Settlement runID key n txn st s :
  coveredMarked st → coveredMarked (phase1Settlement runID key n txn st s).
Proof.
  intros Hinv id Hcov. simpl in *.
  apply covered_snoc_inv in Hcov as [Hcov|[Hhas Hid]].
  - apply Hinv in Hcov. destruct txn; simpl; set_solver.
  - destruct txn as [t|]; simpl in *; [set_solver|].
    by destruct Hhas as [? [=]].
Qed.

Lemma coveredMarked_phase1Group runID byPK byOrder st entry :
  coveredMarked st → coveredMarked (phase1Group runID byPK byOrder st entry).
Proof.
  intros Hinv. destruct entry as [key [|s0 [|s1 g]]]; simpl; try done.
  apply (foldl_invariant coveredMarked (phase1Settlement runID key _ _)
           (s0 :: s1 :: g)).
  - intros. by apply coveredMarked_phase1Settlement.
  - exact Hinv.
Qed.

Lemma coveredMarked_phase2Settlement runID cfg byPK byOrder st s :
  coveredMarked st → coveredMarked (phase2Settlement runID cfg byPK byOrder st s).
Proof.
  intros Hinv. unfold phase2Settlement. repeat case_bool_decide; try done.
  destruct (findTransaction _ _ _ _) as [txn|]; intros id Hcov; simpl in *;
    apply covered_snoc_inv in Hcov as [Hcov|[Hhas Hid]].
  - apply Hinv in Hcov. set_solver.
  - destruct (matchedResult_fields cfg (resultIdent runID (S (resultID st))) txn s)
      as (_ & Ht & _). rewrite Ht in Hid. set_solver.
  - by apply Hinv.
  - by destruct Hhas as [? [=]].
Qed.

Lemma filter_Forall_iff {A} (P Q : A → Prop) `{∀ x, Decision (P x)}
    `{∀ x, Decision (Q x)} (l : list A) :
  Forall (λ x, P x ↔ Q x) l → filter P l = filter Q l.
Proof.
  induction 1 as [|x l Hx Hl IH]; [done|].
  rewrite !filter_cons, IH. destruct (decide (P x)), (decide (Q x)); tauto.
Qed.

Lemma length_filter_fmap_eq {A} (f : A → string) (id : string) (l : list A) :
  length (filter (λ x, f x = id) l) = length (filter (λ y, y = id) (f <$> l)).
Proof.
  induction l as [|x l IH]; [done|].
  rewrite fmap_cons, !filter_cons. destruct (decide (f x = id)); simpl; by rewrite IH.
Qed.

(** X15. A stored transaction is reported as unsettled exactly when no
    settlement found it: if no outcome built from a settlement refers
    to the transaction, it has exactly one unsettled outcome; if one
    does (a match, or the duplicates of a group that found it), it has
    none. *)
Theorem unsettled_iff_not_found (range : MapRange) (sortSlice : SortSlice)
    (now : Time) (store : Store) (cfg : ReconciliationConfig) (runID : string)
    (k : string) (t : Transaction) :
  MapRangeSpec range →
  store_wf store →
  transactions store !! k = Some t →
  let outcomes := Results (Run range sortSlice now store cfg runID) in
  let found :=
    filter (λ r, rr_Status r ≠ StatusUnsettled ∧ hasTransaction r ∧
                 rr_TransactionID r = tx_ID t) outcomes in
  let unsettled :=
    filter (λ r, rr_Status r = StatusUnsettled ∧ rr_TransactionID r = tx_ID t)
      outcomes in
  (found = [] → length unsettled = 1%nat) ∧ (found ≠ [] → unsettled = []).
Proof.
  intros Hrange [Hwft _] Hk outcomes found unsettled.
  subst found unsettled outcomes. rewrite Run_Results.
  set (txns := ListTransactions range store).
  set (setts := ListSettlements range store).
  assert (Hnodup : NoDup (tx_ID <$> txns)) by by apply snapshot_NoDup.
  assert (Ht : t ∈ txns) by (apply snapshot_elem_of; eauto).
  destruct (runPhases_phases range cfg runID txns setts)
    as (l1 & l2 & l3 & H2 & H3 & Hall1 & Hall2 & Hall3 & Hids).
  set (st2 := foldl _ _ setts) in *.
  assert (Hcov : txnsCovered st2).
  { apply (foldl_invariant txnsCovered);
      [intros; by apply txnsCovered_phase2Settlement|].
    apply (foldl_invariant txnsCovered);
      [intros; by apply txnsCovered_phase1Group|].
    by intros id ?%elem_of_empty. }
  assert (Hmark : coveredMarked st2).
  { apply (foldl_invariant coveredMarked);
      [intros; by apply coveredMarked_phase2Settlement|].
    apply (foldl_invariant coveredMarked);
      [intros; by apply coveredMarked_phase1Group|].
    intros id (r & Hr & _). by apply elem_of_nil in Hr. }
  assert (Hsettled : Forall (λ r, rr_Status r ≠ StatusUnsettled) (results st2)).
  { rewrite H2. apply Forall_app. split.
    - eapply Forall_impl; [exact Hall1|]. by intros r ->.
    - eapply Forall_impl; [exact Hall2|]. by intros r [-> |[-> | ->]]. }
  rewrite H3, !filter_app.
  assert (Hf3 : filter (λ r, rr_Status r ≠ StatusUnsettled ∧ hasTransaction r ∧
                             rr_TransactionID r = tx_ID t) l3 = []).
  { apply filter_none. intros r Hr [Hst _].
    rewrite Forall_forall in Hall3. by apply Hst, Hall3. }
  assert (Hu2 : filter (λ r, rr_Status r = StatusUnsettled ∧
                             rr_TransactionID r = tx_ID t) (results st2) = []).
  { apply filter_none. intros r Hr [Hst _].
    rewrite Forall_forall in Hsettled. by apply (Hsettled r Hr). }
  rewrite Hf3, Hu2, app_nil_r. simpl.
  assert (Hu3 : length (filter (λ r, rr_Status r = StatusUnsettled ∧
                                     rr_TransactionID r = tx_ID t) l3) =
                length (filter (λ t', tx_ID t' = tx_ID t ∧
                                      tx_ID t' ∉ matchedTxnIDs st2) txns)).
  { rewrite (filter_Forall_iff _ (λ r, rr_TransactionID r = tx_ID t)).
    2:{ eapply Forall_impl; [exact Hall3|]. intros r Hr. simpl. tauto. }
    rewrite (length_filter_fmap_eq rr_TransactionID), Hids.
    by rewrite <- (length_filter_fmap_eq tx_ID), list_filter_filter. }
  destruct (decide (tx_ID t ∈ matchedTxnIDs st2)) as [Hin|Hnin].
  - destruct (Hcov _ Hin) as (r & Hr & Hhas & Hid).
    assert (Hfound : r ∈ filter (λ r, rr_Status r ≠ StatusUnsettled ∧
                                      hasTransaction r ∧
                                      rr_TransactionID r = tx_ID t) (results st2)).
    { apply list_elem_of_filter. split; [|done]. split; [|done].
      rewrite Forall_forall in Hsettled. by apply Hsettled. }
    split.
    + intros Hnil. rewrite Hnil in Hfound. by apply elem_of_nil in Hfound.
    + intros _. apply length_zero_iff_nil. rewrite Hu3.
      rewrite filter_none; [done|]. intros t' _ [Heq Hnot]. by rewrite Heq in Hnot.
  - split.
    + intros _. rewrite Hu3.
      rewrite (list_filter_iff _ (λ t', tx_ID t' = tx_ID t)).
      * by apply length_filter_NoDup.
      * intros t'. split; [tauto|]. intros Heq. split; [done|]. by rewrite Heq.
    + intros Hne. exfalso. apply Hne. apply filter_none.
      intros r Hr (_ & Hhas & Hid). apply Hnin, Hmark. by exists r.
Qed.

Lemma unsettled_iff_not_found_witness :
  MapRangeSpec rangeCanonical ∧
  store_wf storeFull ∧
  transactions storeFull !! "T5" = Some (mkTxn "T5" "O5" "P1" "PT5" 500 "USD" "MX") ∧
  let t := mkTxn "T5" "O5" "P1" "PT5" 500 "USD" "MX" in
  let outcomes :=
    Results (Run rangeCanonical sortStable 0 storeFull DefaultConfig "RUN") in
  let found :=
    filter (λ r, rr_Status r ≠ StatusUnsettled ∧ hasTransaction r ∧
                 rr_TransactionID r = tx_ID t) outcomes in
  let unsettled :=
    filter (λ r, rr_Status r = StatusUnsettled ∧ rr_TransactionID r = tx_ID t)
      outcomes in
  (found = [] → length unsettled = 1%nat) ∧ (found ≠ [] → unsettled = []).
Proof.
  split; [exact rangeCanonical_spec|]. split; [exact (store_wf_mkStore _ _)|].
  split; [vm_compute; reflexivity|].
  apply (unsettled_iff_not_found rangeCanonical sortStable 0 storeFull
           DefaultConfig "RUN" "T5" (mkTxn "T5" "O5" "P1" "PT5" 500 "USD" "MX")
           rangeCanonical_spec (store_wf_mkStore _ _)).
  vm_compute. reflexivity.
Defined.

(** ** The report: totals, counters, rate and breakdowns *)

Lemma foldl_addToSummary_totals l s :
  let s' := foldl addToSummary s l in
  (TotalExpectedAmount s' ==
     TotalExpectedAmount s + sumAmounts rr_ExpectedAmount l)%Q ∧
  (TotalSettledGross s' ==
     TotalSettledGross s + sumAmounts rr_SettledGrossAmount l)%Q ∧
  (TotalSettledNet s' ==
     TotalSettledNet s + sumAmounts rr_SettledNetAmount l)%Q ∧
  (TotalVarianceAmount s' ==
     TotalVarianceAmount s + sumAmounts rr_VarianceAmount l)%Q ∧
  (TotalFees s' == TotalFees s + sumAmounts rr_FeeAmount l)%Q ∧
  TotalTransactions s' = TotalTransactions s ∧
  TotalSettlements s' = TotalSettlements s.
Proof.
  revert s. induction l as [|r l IH]; intros s; simpl.
  - repeat split; try done; ring.
  - destruct (IH (addToSummary s r)) as (H1 & H2 & H3 & H4 & H5 & H6 & H7).
    rewrite H1, H2, H3, H4, H5, H6, H7. simpl. repeat split; try done; ring.
Qed.

(** X16. The five monetary totals of the summary are the sums of the
    corresponding amounts over the outcomes, and the two record totals
    are the sizes of the snapshots. *)
Theorem summary_totals (sortSlice : SortSlice) (now : Time)
    (cfg : ReconciliationConfig) (runID : string) (txns : list Transaction)
    (setts : list SettlementRecord) (results : list ReconciliationResult) :
  let s := Summary (buildReport sortSlice now cfg runID txns setts results) in
  (TotalExpectedAmount s == sumAmounts rr_ExpectedAmount results)%Q ∧
  (TotalSettledGross s == sumAmounts rr_SettledGrossAmount results)%Q ∧
  (TotalSettledNet s == sumAmounts rr_SettledNetAmount results)%Q ∧
  (TotalVarianceAmount s == sumAmounts rr_VarianceAmount results)%Q ∧
  (TotalFees s == sumAmounts rr_FeeAmount results)%Q ∧
  TotalTransactions s = Z.of_nat (length txns) ∧
  TotalSettlements s = Z.of_nat (length setts).
Proof.
  unfold buildReport. simpl. rewrite foldl_reportStep_Summary. simpl.
  match goal with |- context [foldl addToSummary ?s0 _] =>
    destruct (foldl_addToSummary_totals results s0)
      as (H1 & H2 & H3 & H4 & H5 & H6 & H7)
  end.
  simpl in *. rewrite H1, H2, H3, H4, H5, H6, H7.
  repeat split; try done; ring.
Qed.

Lemma countStatus_total l :
  countStatus StatusMatched l + countStatus StatusMatchedWithVariance l +
  countStatus StatusUnsettled l + countStatus StatusUnexpectedSettlement l +
  countStatus StatusDuplicate l = Z.of_nat (length l).
Proof.
  induction l as [|r l IH]; [done|].
  rewrite !countStatus_cons. simpl length.
  destruct (rr_Status r); repeat case_bool_decide; try done; lia.
Qed.

(** X17. Each status counter of the summary is the number of outcomes
    with that status, and the five counters add up to the number of
    outcomes: the denominator of the reconciliation rate is the length
    of the outcome list. *)
Theorem summary_counters (sortSlice : SortSlice) (now : Time)
    (cfg : ReconciliationConfig) (runID : string) (txns : list Transaction)
    (setts : list SettlementRecord) (results : list ReconciliationResult) :
  let s := Summary (buildReport sortSlice now cfg runID txns setts results) in
  Matched s = countStatus StatusMatched results ∧
  MatchedWithVariance s = countStatus StatusMatchedWithVariance results ∧
  Unsettled s = countStatus StatusUnsettled results ∧
  UnexpectedSettlements s = countStatus StatusUnexpectedSettlement results ∧
  Duplicates s = countStatus StatusDuplicate results ∧
  Matched s + MatchedWithVariance s + Unsettled s + UnexpectedSettlements s +
    Duplicates s = Z.of_nat (length results).
Proof.
  intros s.
  destruct (buildReport_counts sortSlice now cfg runID txns setts results)
    as (H1 & H2 & H3 & H4 & H5).
  fold s in H1, H2, H3, H4, H5. rewrite H1, H2, H3, H4, H5.
  repeat split; try done. apply countStatus_total.
Qed.

Lemma rate_within_bounds (part total : Z) :
  0 ≤ part ≤ total → 0 < total →
  (0 <= inject_Z part / inject_Z total * 100 <= 100)%Q.
Proof.
  intros [Hpart Hle] Hpos.
  assert (Ht : (inject_Z 0 < inject_Z total)%Q) by (by rewrite <- Zlt_Qlt).
  assert (Hp : (inject_Z 0 <= inject_Z part)%Q) by (by rewrite <- Zle_Qle).
  assert (Hpt : (inject_Z part <= inject_Z total)%Q) by (by rewrite <- Zle_Qle).
  change (inject_Z 0) with 0%Q in Ht, Hp.
  assert (H0 : (0 <= inject_Z part / inject_Z total)%Q).
  { apply Qle_shift_div_l; [done|]. by rewrite Qmult_0_l. }
  assert (H1 : (inject_Z part / inject_Z total <= 1)%Q).
  { apply Qle_shift_div_r; [done|]. by rewrite Qmult_1_l. }
  split; lra.
Qed.

(** X18. The reconciliation rate of a report is a percentage: between 0
    and 100. *)
Theorem reconciliation_rate_bounds (sortSlice : SortSlice) (now : Time)
    (cfg : ReconciliationConfig) (runID : string) (txns : list Transaction)
    (setts : list SettlementRecord) (results : list ReconciliationResult) :
  let rate :=
    ReconciliationRate
      (Summary (buildReport sortSlice now cfg runID txns setts results)) in
  (0 <= rate <= 100)%Q.
Proof.
  intros rate. subst rate.
  destruct (buildReport_counts sortSlice now cfg runID txns setts results)
    as (H1 & H2 & H3 & H4 & H5).
  unfold buildReport in *. simpl in *.
  rewrite foldl_reportStep_Summary in *. simpl in *.
  match goal with |- context [foldl addToSummary ?s0 _] =>
    destruct (foldl_addToSummary_counts results s0) as (_ & _ & _ & _ & _ & Hrate);
    set (s' := foldl addToSummary s0 results) in *
  end.
  simpl in Hrate.
  pose proof (countStatus_nonneg StatusMatched results).
  pose proof (countStatus_nonneg StatusMatchedWithVariance results).
  pose proof (countStatus_nonneg StatusUnsettled results).
  pose proof (countStatus_nonneg StatusUnexpectedSettlement results).
  pose proof (countStatus_nonneg StatusDuplicate results).
  destruct (Z.ltb_spec 0 (summaryTotal s')) as [Hpos|Hzero].
  - apply rate_within_bounds; [|done]. unfold summaryTotal in *. lia.
  - rewrite Hrate. split; [apply Qle_refl|discriminate].
Qed.

Lemma foldl_reportStep_breakdowns cfg l report :
  ByCurrency (foldl (reportStep cfg) report l) =
    foldl (λ m r, addToBreakdown m (rr_Currency r) r) (ByCurrency report) l ∧
  ByCountry (foldl (reportStep cfg) report l) =
    foldl (λ m r, addToBreakdown m (rr_Country r) r) (ByCountry report) l ∧
  ByProcessor (foldl (reportStep cfg) report l) =
    foldl (λ m r, addToBreakdown m (rr_ProcessorName r) r) (ByProcessor report) l.
Proof.
  revert report. induction l as [|r l IH]; intros report; [done|]. simpl.
  destruct (IH (reportStep cfg report r)) as (-> & -> & ->). done.
Qed.

Lemma foldl_addToBreakdown (key : ReconciliationResult → string) l
    (m : gmap string ReportSummary) k :
  foldl (λ m r, addToBreakdown m (key r) r) m l !! k =
  if decide (k = "") then m !! k
  else
    match filter (λ r, key r = k) l with
    | [] => m !! k
    | group => Some (foldl addToSummary (default zeroSummary (m !! k)) group)
    end.
Proof.
  revert m. induction l as [|r l IH]; intros m; simpl.
  - by case_decide.
  - rewrite IH, filter_cons. unfold addToBreakdown.
    destruct (decide (k = "")) as [->|Hk].
    + case_bool_decide as Hkey; [|done]. by rewrite lookup_insert_ne.
    + destruct (decide (key r = k)) as [Heq|Hne].
      * rewrite bool_decide_eq_true_2 by congruence.
        rewrite Heq, lookup_insert_eq. simpl. by destruct (filter _ l).
      * case_bool_decide; [by rewrite lookup_insert_ne|done].
Qed.

Lemma breakdowns_group_outcomes_aux sortSlice now cfg runID txns setts results k :
  let report := buildReport sortSlice now cfg runID txns setts results in
  ByCurrency report !! k = bucketOf rr_Currency k results ∧
  ByCountry report !! k = bucketOf rr_Country k results ∧
  ByProcessor report !! k = bucketOf rr_ProcessorName k results.
Proof.
  unfold buildReport. simpl.
  match goal with |- context [foldl (reportStep cfg) ?r0 results] =>
    destruct (foldl_reportStep_breakdowns cfg results r0) as (-> & -> & ->)
  end.
  simpl. rewrite !foldl_addToBreakdown. unfold bucketOf.
  rewrite !lookup_empty. simpl. repeat split; by case_decide.
Qed.

(** X19. Each breakdown of a report groups the outcomes by one field:
    under a currency, a country or a processor name the report holds
    the summary of the outcomes with that value, an outcome whose field
    is empty is left out of that breakdown, and a value no outcome has
    is absent. *)
Theorem breakdowns_group_outcomes (sortSlice : SortSlice) (now : Time)
    (cfg : ReconciliationConfig) (runID : string) (txns : list Transaction)
    (setts : list SettlementRecord) (results : list ReconciliationResult)
    (k : string) :
  let report := buildReport sortSlice now cfg runID txns setts results in
  ByCurrency report !! k = bucketOf rr_Currency k results ∧
  ByCountry report !! k = bucketOf rr_Country k results ∧
  ByProcessor report !! k = bucketOf rr_ProcessorName k results.
Proof. apply breakdowns_group_outcomes_aux. Qed.

Lemma bucketOf_Some key k l s :
  bucketOf key k l = Some s →
  k ≠ "" ∧
  summaryTotal s = Z.of_nat (length (filter (λ r, key r = k) l)) ∧
  0 < summaryTotal s ∧
  ReconciliationRate s = 0%Q ∧ TotalTransactions s = 0 ∧ TotalSettlements s = 0.
Proof.
  unfold bucketOf. case_decide as Hk; [done|].
  destruct (filter (λ r, key r = k) l) as [|r group] eqn:Hgroup; [done|].
  intros [= <-]. split; [done|].
  destruct (foldl_addToSummary_counts (r :: group) zeroSummary)
    as (H1 & H2 & H3 & H4 & H5 & H6).
  destruct (foldl_addToSummary_totals (r :: group) zeroSummary)
    as (_ & _ & _ & _ & _ & H7 & H8).
  pose proof (countStatus_total (r :: group)) as Htotal.
  unfold summaryTotal.
  cbn [foldl] in *. rewrite H1, H2, H3, H4, H5, H6, H7, H8.
  cbn [zeroSummary Matched MatchedWithVariance Unsettled UnexpectedSettlements
       Duplicates ReconciliationRate TotalTransactions TotalSettlements length] in *.
  repeat split; try done; lia.
Qed.

(** X20. A breakdown never holds an empty key or an empty group: every
    summary of a breakdown counts at least one outcome, its counters
    add up to the number of outcomes with that value, and its
    reconciliation rate and record totals are never set (they stay
    0). *)
Theorem breakdown_buckets (sortSlice : SortSlice) (now : Time)
    (cfg : ReconciliationConfig) (runID : string) (txns : list Transaction)
    (setts : list SettlementRecord) (results : list ReconciliationResult)
    (k : string) (s : ReportSummary) :
  let report := buildReport sortSlice now cfg runID txns setts results in
  let facts (key : ReconciliationResult → string) :=
    k ≠ "" ∧
    summaryTotal s = Z.of_nat (length (filter (λ r, key r = k) results)) ∧
    0 < summaryTotal s ∧
    ReconciliationRate s = 0%Q ∧ TotalTransactions s = 0 ∧ TotalSettlements s = 0 in
  (ByCurrency report !! k = Some s → facts rr_Currency) ∧
  (ByCountry report !! k = Some s → facts rr_Country) ∧
  (ByProcessor report !! k = Some s → facts rr_ProcessorName).
Proof.
  intros report facts. subst facts.
  destruct (breakdowns_group_outcomes_aux sortSlice now cfg runID txns setts results k)
    as (H1 & H2 & H3).
  fold report in H1, H2, H3. rewrite H1, H2, H3.
  split; [|split]; intros Hs; by apply bucketOf_Some.
Qed.

Lemma breakdown_buckets_witness :
  let results := [unsettledResult "RR-RUN-0001" txn001] in
  let s := foldl addToSummary zeroSummary results in
  "MXN" ≠ "" ∧
  summaryTotal s = Z.of_nat (length (filter (λ r, rr_Currency r = "MXN") results)) ∧
  0 < summaryTotal s ∧
  ReconciliationRate s = 0%Q ∧ TotalTransactions s = 0 ∧ TotalSettlements s = 0.
Proof.
  apply (proj1 (breakdown_buckets sortStable 0 DefaultConfig "RUN" [txn001] []
                  [unsettledResult "RR-RUN-0001" txn001] "MXN"
                  (foldl addToSummary zeroSummary
                     [unsettledResult "RR-RUN-0001" txn001]))).
  vm_compute. reflexivity.
Defined.

(** ** handler.go *)

#[global] Instance runIdent_inj : Inj (=) (=) runIdent.
Proof. intros n m H. unfold runIdent in H. by apply append_inj_r, fmt04d_inj in H. Qed.

(** X21. What a request can override for one run, on a handler whose
    reconciler has the handler's configuration: a scalar is replaced
    only by a positive value, so a zero or negative value leaves the
    handler's (the tolerance cannot be overridden to 0), the FX rates
    are never overridden, and without a body the run uses the handler's
    configuration. *)
Theorem runConfig_override (h : Handler) (override : ReconciliationConfig) :
  h_reconciler h = h_config h →
  runConfig h None = h_config h ∧
  let cfg := runConfig h (Some override) in
  FXRates cfg = FXRates (h_config h) ∧
  VarianceTolerancePct cfg =
    (if Qgtb (VarianceTolerancePct override) 0
     then VarianceTolerancePct override else VarianceTolerancePct (h_config h)) ∧
  LateSettlementDays cfg =
    (if 0 <? LateSettlementDays override
     then LateSettlementDays override else LateSettlementDays (h_config h)) ∧
  HighPriorityThreshold cfg =
    (if Qgtb (HighPriorityThreshold override) 0
     then HighPriorityThreshold override else HighPriorityThreshold (h_config h)).
Proof.
  intros Hcfg. unfold runConfig. rewrite Hcfg. split; [done|].
  destruct (Qgtb (VarianceTolerancePct override) 0) eqn:H1;
    destruct (0 <? LateSettlementDays override) eqn:H2;
    destruct (Qgtb (HighPriorityThreshold override) 0) eqn:H3;
    simpl; rewrite ?H1, ?H2, ?H3; done.
Qed.

Lemma runConfig_override_witness :
  let h := Handler_New Store_New ∅ configTolerance2 configTolerance2 in
  h_reconciler h = h_config h ∧
  runConfig h None = h_config h ∧
  let cfg := runConfig h (Some configThreshold0) in
  FXRates cfg = FXRates (h_config h) ∧
  VarianceTolerancePct cfg =
    (if Qgtb (VarianceTolerancePct configThreshold0) 0
     then VarianceTolerancePct configThreshold0
     else VarianceTolerancePct (h_config h)) ∧
  LateSettlementDays cfg =
    (if 0 <? LateSettlementDays configThreshold0
     then LateSettlementDays configThreshold0
     else LateSettlementDays (h_config h)) ∧
  HighPriorityThreshold cfg =
    (if Qgtb (HighPriorityThreshold configThreshold0) 0
     then HighPriorityThreshold configThreshold0
     else HighPriorityThreshold (h_config h)).
Proof.
  split; [reflexivity|].
  apply (runConfig_override
           (Handler_New Store_New ∅ configTolerance2 configTolerance2)
           configThreshold0).
  reflexivity.
Defined.

(** An override with tolerance 0 and threshold 0 leaves both as the
    handler has them. *)
Example override_zero_is_ignored :
  let cfg :=
    runConfig (Handler_New Store_New ∅ configTolerance2 configTolerance2)
      (Some configThreshold0) in
  VarianceTolerancePct cfg = (2 # 100)%Q ∧ HighPriorityThreshold cfg = 1000%Q.
Proof. split; reflexivity. Qed.

Lemma handler_wf_New s runs cfg :
  store_wf s → (∀ n, runs !! runIdent n = None) →
  handler_wf (Handler_New s runs cfg cfg).
Proof.
  intros Hwf Hruns. split; [done|]. split; [done|].
  intros n [run Hrun]. simpl in Hrun. by rewrite Hruns in Hrun.
Qed.

Lemma handler_wf_trigger range sortSlice createdAt generatedAt h cfgOverride :
  handler_wf h →
  handler_wf (triggerReconciliation range sortSlice createdAt generatedAt h
                cfgOverride).1.
Proof.
  intros (Hstore & Hcfg & Hruns). split; [done|]. split; [done|].
  intros n Hn. simpl in *. unfold SaveRun in Hn. simpl in Hn.
  destruct (decide (n = S (h_runSeq h))) as [->|Hne]; [done|].
  rewrite !lookup_insert_ne in Hn by (intros Heq; by apply runIdent_inj in Heq).
  apply Hruns in Hn. lia.
Qed.

(** X22. The handler keeps its state consistent: when records are
    stored under their identifiers, the reconciler has the handler's
    configuration and no stored run is numbered beyond the counter,
    the same holds after an upload of transactions or settlements
    (accepted or rejected), after a configuration update and after a
    triggered run. *)
Theorem handler_wf_preserved (h : Handler) :
  handler_wf h →
  (∀ body, handler_wf (uploadTransactions h body).1) ∧
  (∀ body, handler_wf (uploadSettlements h body).1) ∧
  (∀ body, handler_wf (updateConfig h body).1) ∧
  (∀ range sortSlice createdAt generatedAt cfgOverride,
     handler_wf (triggerReconciliation range sortSlice createdAt generatedAt h
                   cfgOverride).1).
Proof.
  intros Hwf. assert (Hwf' := Hwf). destruct Hwf' as (Hstore & Hcfg & Hruns).
  split; [|split; [|split]].
  - intros [err|[|t txns]]; try done. unfold uploadTransactions.
    pose proof (store_wf_AddTransactions (h_store h) (t :: txns) Hstore) as Hs.
    destruct (AddTransactions (h_store h) (t :: txns)) as [s' count].
    by split.
  - intros [err|[|r recs]]; try done. unfold uploadSettlements.
    pose proof (store_wf_AddSettlements (h_store h) (r :: recs) Hstore) as Hs.
    destruct (AddSettlements (h_store h) (r :: recs)) as [s' count].
    by split.
  - intros [err|cfg]; [done|]. by split.
  - intros. by apply handler_wf_trigger.
Qed.

Lemma handler_wf_preserved_witness :
  let h := Handler_New Store_New ∅ DefaultConfig DefaultConfig in
  handler_wf h ∧
  (∀ body, handler_wf (uploadTransactions h body).1) ∧
  (∀ body, handler_wf (uploadSettlements h body).1) ∧
  (∀ body, handler_wf (updateConfig h body).1) ∧
  (∀ range sortSlice createdAt generatedAt cfgOverride,
     handler_wf (triggerReconciliation range sortSlice createdAt generatedAt h
                   cfgOverride).1).
Proof.
  assert (Hwf : handler_wf (Handler_New Store_New ∅ DefaultConfig DefaultConfig))
    by (apply handler_wf_New; [exact store_wf_New|intros n; apply lookup_empty]).
  split; [exact Hwf|].
  exact (handler_wf_preserved
           (Handler_New Store_New ∅ DefaultConfig DefaultConfig) Hwf).
Defined.

(** X23. A triggered run is stored as completed under a fresh
    identifier: the identifier ["RUN-" n] of the incremented counter
    was not in use, the run reads back under it as completed with its
    report, every other run is left as it was, the records are not
    touched, and the reply carries the identifier and the summary of
    the report. *)
Theorem triggerReconciliation_stores_run (range : MapRange) (sortSlice : SortSlice)
    (createdAt generatedAt : Time) (h : Handler)
    (cfgOverride : option ReconciliationConfig) :
  handler_wf h →
  let runID := runIdent (S (h_runSeq h)) in
  let report :=
    Run range sortSlice generatedAt (h_store h) (runConfig h cfgOverride) runID in
  let result :=
    triggerReconciliation range sortSlice createdAt generatedAt h cfgOverride in
  result.2 = Reply StatusOK (runID, Summary report) ∧
  GetRun (h_runs h) runID = None ∧
  getRun result.1 runID =
    Reply StatusOK
      {| run_ID := runID; run_CreatedAt := createdAt; run_Status := "completed";
         run_Report := Some report |} ∧
  getReport result.1 runID = Reply StatusOK report ∧
  (∀ id, id ≠ runID → GetRun (h_runs result.1) id = GetRun (h_runs h) id) ∧
  h_store result.1 = h_store h ∧
  h_runSeq result.1 = S (h_runSeq h).
Proof.
  intros (Hstore & Hcfg & Hruns) runID report result.
  split; [done|]. split; [|split; [|split; [|split]]].
  - unfold GetRun. destruct (h_runs h !! runID) as [run|] eqn:Hrun; [|done].
    assert (Hle : (S (h_runSeq h) ≤ h_runSeq h)%nat) by (apply Hruns; by eexists).
    lia.
  - unfold getRun, GetRun. subst result. simpl. unfold SaveRun. simpl.
    by rewrite lookup_insert_eq.
  - unfold getReport, GetRun. subst result. simpl. unfold SaveRun. simpl.
    by rewrite lookup_insert_eq.
  - intros id Hne. unfold GetRun. subst result. simpl. unfold SaveRun. simpl.
    by rewrite !lookup_insert_ne.
  - done.
Qed.

Lemma triggerReconciliation_stores_run_witness :
  let h := Handler_New storeFull ∅ DefaultConfig DefaultConfig in
  handler_wf h ∧
  let runID := runIdent (S (h_runSeq h)) in
  let report :=
    Run rangeCanonical sortStable 0 (h_store h) (runConfig h None) runID in
  let result := triggerReconciliation rangeCanonical sortStable 0 0 h None in
  result.2 = Reply StatusOK (runID, Summary report) ∧
  GetRun (h_runs h) runID = None ∧
  getRun result.1 runID =
    Reply StatusOK
      {| run_ID := runID; run_CreatedAt := 0; run_Status := "completed";
         run_Report := Some report |} ∧
  getReport result.1 runID = Reply StatusOK report ∧
  (∀ id, id ≠ runID → GetRun (h_runs result.1) id = GetRun (h_runs h) id) ∧
  h_store result.1 = h_store h ∧
  h_runSeq result.1 = S (h_runSeq h).
Proof.
  assert (Hwf : handler_wf (Handler_New storeFull ∅ DefaultConfig DefaultConfig))
    by (apply handler_wf_New;
        [exact (store_wf_mkStore _ _)|intros n; apply lookup_empty]).
  split; [exact Hwf|].
  exact (triggerReconciliation_stores_run rangeCanonical sortStable 0 0
           (Handler_New storeFull ∅ DefaultConfig DefaultConfig) None Hwf).
Defined.

Example first_run_identifier :
  (triggerReconciliation rangeCanonical sortStable 0 0
     (Handler_New storePerfectMatch ∅ DefaultConfig DefaultConfig) None).2 =
  Reply StatusOK
    ("RUN-0001",
     Summary (Run rangeCanonical sortStable 0 storePerfectMatch DefaultConfig
                "RUN-0001")).
Proof. reflexivity. Qed.

(** X24. Once a run has been triggered, the reconciliation of a stored
    transaction can be queried: the reply lists results that all refer
    to the transaction, taken from the reports of the stored runs, and
    at least one of them is an outcome of the new run. A transaction
    that is not stored is answered with "not found", whatever the
    runs hold. *)
Theorem transaction_query_after_run (range : MapRange) (sortSlice : SortSlice)
    (createdAt generatedAt : Time) (h : Handler)
    (cfgOverride : option ReconciliationConfig) (txnID : string) :
  MapRangeSpec range →
  handler_wf h →
  let h' :=
    (triggerReconciliation range sortSlice createdAt generatedAt h cfgOverride).1 in
  let report :=
    Run range sortSlice generatedAt (h_store h) (runConfig h cfgOverride)
      (runIdent (S (h_runSeq h))) in
  match GetTransaction (h_store h) txnID with
  | None =>
      getTransactionReconciliation range h' txnID =
      ErrorReply StatusNotFound "transaction not found"
  | Some _ =>
      ∃ results,
        getTransactionReconciliation range h' txnID =
          Reply StatusOK (txnID, results) ∧
        (∀ r, r ∈ results →
              rr_TransactionID r = txnID ∧
              ∃ id run rep, GetRun (h_runs h') id = Some run ∧
                            run_Report run = Some rep ∧ r ∈ Results rep) ∧
        (∃ r, r ∈ results ∧ r ∈ Results report)
  end.
Proof.
  intros Hrange (Hstore & Hcfg & Hruns) h' report.
  unfold getTransactionReconciliation.
  assert (Hs : h_store h' = h_store h) by done. rewrite Hs.
  destruct (GetTransaction (h_store h) txnID) as [t|] eqn:Ht; [|done].
  eexists. split; [done|]. split.
  - intros r (l & Hr & Hl)%elem_of_concat.
    apply list_elem_of_fmap in Hl as (run & -> & Hrun).
    unfold ListRuns in Hrun. apply snapshot_elem_of in Hrun as [k Hk]; [|done].
    unfold runResultsFor in Hr.
    destruct (run_Report run) as [rep|] eqn:Hrep; [|by apply elem_of_nil in Hr].
    apply list_elem_of_filter in Hr as [Hid Hr]. split; [done|].
    by exists k, run, rep.
  - destruct Hstore as [Hwft _].
    assert (Hid : tx_ID t = txnID) by (by apply (Hwft txnID t)).
    assert (Hin : t ∈ ListTransactions range (h_store h))
      by (apply snapshot_elem_of; eauto).
    destruct (runPhases_covered range (runConfig h cfgOverride)
                (runIdent (S (h_runSeq h))) _
                (ListSettlements range (h_store h)) t Hin)
      as (r & Hr & _ & Hrid).
    assert (Hrep : r ∈ Results report) by (unfold report; by rewrite Run_Results).
    exists r. split; [|done].
    apply elem_of_concat.
    exists (filter (λ res, rr_TransactionID res = txnID) (Results report)).
    split; [apply list_elem_of_filter; split; [congruence|done]|].
    apply list_elem_of_fmap.
    exists {| run_ID := runIdent (S (h_runSeq h)); run_CreatedAt := createdAt;
              run_Status := "completed"; run_Report := Some report |}.
    split; [done|]. unfold ListRuns. apply snapshot_elem_of; [done|].
    exists (runIdent (S (h_runSeq h))). subst h'. simpl. unfold SaveRun. simpl.
    by rewrite lookup_insert_eq.
Qed.

Lemma transaction_query_after_run_witness :
  let h := Handler_New storeFull ∅ DefaultConfig DefaultConfig in
  MapRangeSpec rangeCanonical ∧
  handler_wf h ∧
  let h' := (triggerReconciliation rangeCanonical sortStable 0 0 h None).1 in
  let report :=
    Run rangeCanonical sortStable 0 (h_store h) (runConfig h None)
      (runIdent (S (h_runSeq h))) in
  match GetTransaction (h_store h) "T5" with
  | None =>
      getTransactionReconciliation rangeCanonical h' "T5" =
      ErrorReply StatusNotFound "transaction not found"
  | Some _ =>
      ∃ results,
        getTransactionReconciliation rangeCanonical h' "T5" =
          Reply StatusOK ("T5", results) ∧
        (∀ r, r ∈ results →
              rr_TransactionID r = "T5" ∧
              ∃ id run rep, GetRun (h_runs h') id = Some run ∧
                            run_Report run = Some rep ∧ r ∈ Results rep) ∧
        (∃ r, r ∈ results ∧ r ∈ Results report)
  end.
Proof.
  assert (Hwf : handler_wf (Handler_New storeFull ∅ DefaultConfig DefaultConfig))
    by (apply handler_wf_New;
        [exact (store_wf_mkStore _ _)|intros n; apply lookup_empty]).
  split; [exact rangeCanonical_spec|]. split; [exact Hwf|].
  exact (transaction_query_after_run rangeCanonical sortStable 0 0
           (Handler_New storeFull ∅ DefaultConfig DefaultConfig) None "T5"
           rangeCanonical_spec Hwf).
Defined.

Example query_after_run :
  let h' :=
    (triggerReconciliation rangeCanonical sortStable 0 0
       (Handler_New storeFull ∅ DefaultConfig DefaultConfig) None).1 in
  match getTransactionReconciliation rangeCanonical h' "T5" with
  | Reply status (id, results) =>
      status = 200 ∧ id = "T5" ∧ rr_Status <$> results = [StatusUnsettled]
  | ErrorReply _ _ => False
  end ∧
  getTransactionReconciliation rangeCanonical h' "T9" =
    ErrorReply 404 "transaction not found".
Proof. vm_compute. repeat split; reflexivity. Qed.

(** ** The report of a run against the store *)

Lemma countStatus_app status l1 l2 :
  countStatus status (l1 ++ l2) = countStatus status l1 + countStatus status l2.
Proof. unfold countStatus. rewrite filter_app, length_app. lia. Qed.

Lemma countStatus_all status l :
  Forall (λ r, rr_Status r = status) l → countStatus status l = Z.of_nat (length l).
Proof.
  induction 1 as [|r l Hr Hl IH]; [done|].
  rewrite countStatus_cons, IH, bool_decide_eq_true_2 by done. simpl length. lia.
Qed.

Lemma countStatus_none status l :
  Forall (λ r, rr_Status r ≠ status) l → countStatus status l = 0.
Proof.
  induction 1 as [|r l Hr Hl IH]; [done|].
  by rewrite countStatus_cons, IH, bool_decide_eq_false_2.
Qed.

Lemma length_settlementViews l :
  Forall wellShaped l →
  Z.of_nat (length (omap settlementView l)) =
  Z.of_nat (length l) - countStatus StatusUnsettled l.
Proof.
  induction 1 as [|r l Hr Hl IH]; [done|].
  rewrite countStatus_cons.
  change (omap settlementView (r :: l))
    with (match settlementView r with
          | Some v => v :: omap settlementView l
          | None => omap settlementView l
          end).
  unfold wellShaped in Hr. unfold settlementView at 1.
  destruct (rr_Status r) eqn:Hst;
    [destruct Hr as (_ & [t ->] & _)
    |destruct Hr as (_ & [t ->] & _)
    |destruct Hr as (_ & -> & _)
    |destruct Hr as (_ & _ & _ & _ & _ & _ & [t ->])
    |destruct Hr as ([t ->] & _)];
    simpl length; case_bool_decide; try done; lia.
Qed.

(** X25. The counters of a run account for the store: the matched,
    matched_with_variance, unexpected and duplicate outcomes are as many
    as the settlements, and the unsettled outcomes are at most as many
    as the transactions. *)
Theorem summary_accounts_for_store (range : MapRange) (sortSlice : SortSlice)
    (now : Time) (store : Store) (cfg : ReconciliationConfig) (runID : string) :
  MapRangeSpec range →
  store_wf store →
  let s := Summary (Run range sortSlice now store cfg runID) in
  Matched s + MatchedWithVariance s + UnexpectedSettlements s + Duplicates s =
    TotalSettlements s ∧
  TotalSettlements s = Z.of_nat (size (settlements store)) ∧
  0 ≤ Unsettled s ≤ TotalTransactions s ∧
  TotalTransactions s = Z.of_nat (size (transactions store)).
Proof.
  intros Hrange [Hwft Hwfs] s. subst s. unfold Run.
  set (txns := ListTransactions range store).
  set (setts := ListSettlements range store).
  set (outcomes := results (runPhases range cfg runID txns setts)).
  pose proof (buildReport_counts sortSlice now cfg runID txns setts outcomes)
    as Hcounts.
  cbv zeta in Hcounts. destruct Hcounts as (H1 & H2 & H3 & H4 & H5).
  assert (Htt : TotalTransactions
                  (Summary (buildReport sortSlice now cfg runID txns setts outcomes))
                = Z.of_nat (length txns) ∧
                TotalSettlements
                  (Summary (buildReport sortSlice now cfg runID txns setts outcomes))
                = Z.of_nat (length setts)).
  { unfold buildReport. simpl. rewrite foldl_reportStep_Summary. simpl.
    match goal with |- context [foldl addToSummary ?s0 _] =>
      destruct (foldl_addToSummary_totals outcomes s0)
        as (_ & _ & _ & _ & _ & -> & ->)
    end. done. }
  destruct Htt as [Ht Hs].
  rewrite H1, H2, H3, H4, H5, Ht, Hs.
  assert (Hlent : length txns = size (transactions store))
    by (by apply snapshot_length).
  assert (Hlens : length setts = size (settlements store))
    by (by apply snapshot_length).
  assert (Hnodup : NoDup (st_ID <$> setts)) by by apply snapshot_NoDup.
  pose proof (runPhases_settlementViews range cfg runID txns setts Hrange Hnodup)
    as Hviews.
  apply Permutation_length in Hviews. rewrite length_fmap in Hviews.
  pose proof (length_settlementViews outcomes
                (runPhases_wellShaped range cfg runID txns setts)) as Hlen.
  fold outcomes in Hviews. rewrite Hviews in Hlen.
  pose proof (countStatus_total outcomes) as Htotal.
  destruct (runPhases_phases range cfg runID txns setts)
    as (l1 & l2 & l3 & Hr2 & Hr3 & Hall1 & Hall2 & Hall3 & Hids).
  fold outcomes in Hr3.
  assert (Hun : countStatus StatusUnsettled outcomes = Z.of_nat (length l3)).
  { rewrite Hr3, Hr2, !countStatus_app, (countStatus_all _ l3 Hall3).
    rewrite (countStatus_none _ l1), (countStatus_none _ l2); [lia| |].
    - eapply Forall_impl; [exact Hall2|]. by intros r [-> |[-> | ->]].
    - eapply Forall_impl; [exact Hall1|]. by intros r ->. }
  assert (Hl3 : (length l3 ≤ length txns)%nat).
  { rewrite <- (length_fmap rr_TransactionID l3), Hids, length_fmap.
    apply length_filter. }
  rewrite <- Hlent, <- Hlens. repeat split; lia.
Qed.

Lemma summary_accounts_for_store_witness :
  MapRangeSpec rangeCanonical ∧
  store_wf storeFull ∧
  let s := Summary (Run rangeCanonical sortStable 0 storeFull DefaultConfig "RUN") in
  Matched s + MatchedWithVariance s + UnexpectedSettlements s + Duplicates s =
    TotalSettlements s ∧
  TotalSettlements s = Z.of_nat (size (settlements storeFull)) ∧
  0 ≤ Unsettled s ≤ TotalTransactions s ∧
  TotalTransactions s = Z.of_nat (size (transactions storeFull)).
Proof.
  split; [exact rangeCanonical_spec|]. split; [exact (store_wf_mkStore _ _)|].
  exact (summary_accounts_for_store rangeCanonical sortStable 0 storeFull
           DefaultConfig "RUN" rangeCanonical_spec (store_wf_mkStore _ _)).
Defined.

(** X26. A run has no outcome exactly when the store holds no record;
    the report of an empty store has every counter and the
    reconciliation rate at 0. *)
Theorem empty_report_iff_empty_store (range : MapRange) (sortSlice : SortSlice)
    (now : Time) (store : Store) (cfg : ReconciliationConfig) (runID : string) :
  MapRangeSpec range →
  store_wf store →
  let report := Run range sortSlice now store cfg runID in
  (Results report = [] ↔ transactions store = ∅ ∧ settlements store = ∅) ∧
  (Results report = [] →
   summaryTotal (Summary report) = 0 ∧ ReconciliationRate (Summary report) = 0%Q).
Proof.
  intros Hrange Hwf report. split; [split|].
  - intros Hnil.
    pose proof (Run_outcomes_length range sortSlice now store cfg runID Hrange Hwf)
      as Hlen.
    fold report in Hlen. rewrite Hnil in Hlen. simpl in Hlen.
    split; apply map_size_empty_iff; lia.
  - intros [Ht Hs]. subst report. rewrite Run_Results.
    assert (Hlt : ListTransactions range store = []).
    { apply length_zero_iff_nil. unfold ListTransactions.
      by rewrite snapshot_length, Ht, map_size_empty. }
    assert (Hls : ListSettlements range store = []).
    { apply length_zero_iff_nil. unfold ListSettlements.
      by rewrite snapshot_length, Hs, map_size_empty. }
    rewrite Hlt, Hls. unfold runPhases. simpl.
    assert (Hr : range (list SettlementRecord) (settlementsByKey []) = []).
    { apply Permutation_nil_r. rewrite (Hrange _ _).
      unfold settlementsByKey. simpl. by rewrite map_to_list_empty. }
    by rewrite Hr.
  - intros Hnil. subst report. unfold Run in *.
    rewrite buildReport_Results in Hnil. rewrite Hnil.
    unfold buildReport. simpl. done.
Qed.

Lemma empty_report_iff_empty_store_witness :
  MapRangeSpec rangeCanonical ∧
  store_wf Store_New ∧
  let report := Run rangeCanonical sortStable 0 Store_New DefaultConfig "RUN" in
  (Results report = [] ↔ transactions Store_New = ∅ ∧ settlements Store_New = ∅) ∧
  (Results report = [] →
   summaryTotal (Summary report) = 0 ∧ ReconciliationRate (Summary report) = 0%Q).
Proof.
  split; [exact rangeCanonical_spec|]. split; [exact store_wf_New|].
  exact (empty_report_iff_empty_store rangeCanonical sortStable 0 Store_New
           DefaultConfig "RUN" rangeCanonical_spec store_wf_New).
Defined.

(** ** Configuration updates and run overrides *)

(** X27. A configuration update replaces the whole configuration and
    lasts: after an accepted update the configuration reads back as
    sent, zero fields and FX rates included, and a run without a body
    uses exactly it. An update that does not decode changes nothing.
    The override of a run holds for that run only: the handler has its
    configuration and its reconciler as before. *)
Theorem updateConfig_takes_effect (range : MapRange) (sortSlice : SortSlice)
    (createdAt generatedAt : Time) (h : Handler) (cfg : ReconciliationConfig) :
  let h' := (updateConfig h (inr cfg)).1 in
  let runID := runIdent (S (h_runSeq h)) in
  getConfig h' = Reply StatusOK cfg ∧
  (triggerReconciliation range sortSlice createdAt generatedAt h' None).2 =
    Reply StatusOK
      (runID, Summary (Run range sortSlice generatedAt (h_store h) cfg runID)) ∧
  (∀ err, updateConfig h (inl err) =
          (h, ErrorReply StatusBadRequest ("invalid JSON: " +:+ err))) ∧
  (∀ override,
     let h'' :=
       (triggerReconciliation range sortSlice createdAt generatedAt h
          (Some override)).1 in
     h_config h'' = h_config h ∧ h_reconciler h'' = h_reconciler h ∧
     runConfig h'' None = runConfig h None).
Proof. intros h' runID. by repeat split. Qed.

Example update_to_zero_tolerance :
  let h := Handler_New Store_New ∅ configTolerance2 configTolerance2 in
  VarianceTolerancePct (runConfig (updateConfig h (inr configThreshold0)).1 None)
    = 0%Q ∧
  VarianceTolerancePct (runConfig h (Some configThreshold0)) = (2 # 100)%Q.
Proof. split; reflexivity. Qed.
